(** * SudokuSolver: a shallow embedding of [Sudoku.py]

    The development follows the source file top to bottom: [powerset],
    the class [UniqueQueue], the class [Space], and the class [Sudoku] with its
    constructor, [solve], [recursive_backtrack], [constraint_solve],
    [update_naked_sets], [is_solved], [has_conflict] and [get_state].

    Modelling choices.
    - A [Space] object is identified with the position [i] it was created
      for in the constructor's loop; the board keeps its Space objects in a
      list indexed by position, and every Python reference to a Space (in a
      group, in a neighbor set, in the worklist) is that position.
    - Cell values are Python integers ([Z]); [None] is [option]'s [None].
    - A Python [set] of Space objects or of tuples is iterated in an order
      the language does not fix.  The section variables [iter_spaces] and
      [iter_tuples] stand for that order.
    - Exceptions and the fuel of the unbounded loops live in the monad
      [res]. *)

From stdpp Require Import base option numbers list sets gmap.

Open Scope Z_scope.
Open Scope nat_scope.

(** ** Outcomes of a call *)

(** The Python exceptions the modelled code can raise. *)
Inductive exn := IndexError | KeyError | AttributeError.

(** [Ok a]: the call returned [a]; [Raise e]: it raised [e]; [OutOfFuel]:
    the model's iteration budget ran out (not a Python outcome). *)
Inductive res (A : Type) : Type :=
  | Ok (a : A)
  | Raise (e : exn)
  | OutOfFuel.
Arguments Ok {A} a.
Arguments Raise {A} e.
Arguments OutOfFuel {A}.

#[global] Instance res_ret : MRet res := fun A a => Ok a.
#[global] Instance res_bind : MBind res := fun A B f m =>
  match m with
  | Ok a => f a
  | Raise e => Raise e
  | OutOfFuel => OutOfFuel
  end.

#[global] Instance exn_eq_dec : EqDecision exn.
Proof. solve_decision. Defined.

(** ** [class UniqueQueue] *)

Module UniqueQueue.

(** [que] is the underlying FIFO [Queue] (oldest entry first), [set] the
    membership set kept beside it. *)
Record t := mk { que : list nat; set : gset nat }.

(** [__init__] *)
Definition new : t := {| que := []; set := ∅ |}.

(** [empty]: [self.que.qsize() == 0] *)
Definition empty (q : t) : bool := length (que q) =? 0.

(** [put]: the item is added only when it is not in [self.set]. *)
Definition put (item : nat) (q : t) : t :=
  if decide (item ∈ set q) then q
  else {| que := que q ++ [item]; set := set q ∪ {[item]} |}.

(** [get]: [None] on an empty queue; otherwise the oldest entry leaves the
    queue and is removed from [self.set] ([set.remove] raises [KeyError]
    when the item is not a member). *)
Definition get (q : t) : res (option nat * t) :=
  match que q with
  | [] => Ok (None, q)
  | item :: rest =>
      if decide (item ∈ set q)
      then Ok (Some item, {| que := rest; set := set q ∖ {[item]} |})
      else Raise KeyError
  end.

(** The states a queue goes through: created empty, then any sequence of
    [put] and [get] calls. *)
Inductive reachable : t -> Prop :=
  | reach_new : reachable new
  | reach_put q item : reachable q -> reachable (put item q)
  | reach_get q r q' : reachable q -> get q = Ok (r, q') -> reachable q'.

(** The membership set holds exactly the pending entries, once each. *)
Definition consistent (q : t) : Prop :=
  NoDup (que q) ∧ ∀ x, x ∈ set q ↔ x ∈ que q.

End UniqueQueue.

(** ** [powerset] *)

(** [itertools.combinations(l, k)]: the [k]-element subsequences of [l], in
    the order of [l]. *)
Fixpoint combinations {A} (l : list A) (k : nat) : list (list A) :=
  match k with
  | 0 => [[]]
  | S k' =>
      match l with
      | [] => []
      | x :: l' => ((x ::.) <$> combinations l' k') ++ combinations l' (S k')
      end
  end.

(** [powerset(iter)]: every combination of size 2 up to [len(iter)],
    collected in a set of tuples ([remove_dups]: a set holds equal tuples
    once).  [range(2, len(iter) + 1)] is [seq 2 (length l - 1)]. *)
Definition powerset (l : list nat) : list (list nat) :=
  remove_dups (seq 2 (length l - 1) ≫= combinations l).

(** ** [class Space] *)

(** [value]: [None] or an integer; [futures]: the candidate list;
    [neighbors]: the positions of the neighbor Spaces, in the order the set
    is iterated.  (The attribute [n] is stored and never read.) *)
Record Space := mkSpace {
  value : option Z;
  futures : list Z;
  neighbors : list nat
}.

#[global] Instance Space_inhabited : Inhabited Space :=
  populate (mkSpace None [] []).

(** [Space.__init__(value, n)]: [range(1, n**2 + 1)] when the value is
    [None], the empty list otherwise. *)
Definition Space_init (v : option Z) (n : nat) : Space :=
  {| value := v;
     futures := match v with
                | Some _ => []
                | None => Z.of_nat <$> seq 1 (n ^ 2)
                end;
     neighbors := [] |}.

Definition set_value (v : option Z) (s : Space) : Space :=
  mkSpace v (futures s) (neighbors s).
Definition set_futures (f : list Z) (s : Space) : Space :=
  mkSpace (value s) f (neighbors s).
Definition set_neighbors (ns : list nat) (s : Space) : Space :=
  mkSpace (value s) (futures s) ns.

(** [list.remove(x)]: the first occurrence of [x] goes. *)
Fixpoint list_remove (x : Z) (l : list Z) : list Z :=
  match l with
  | [] => []
  | y :: l' => if decide (x = y) then l' else y :: list_remove x l'
  end.

(** [v in futures] for a value that may be [None]. *)
Definition value_in (v : option Z) (l : list Z) : bool :=
  match v with
  | Some x => bool_decide (x ∈ l)
  | None => false
  end.

(** The two statements [s.value = s.futures[0]; s.futures = []]. *)
Definition assign_first (s : Space) : Space :=
  match futures s with
  | v :: _ => mkSpace (Some v) [] (neighbors s)
  | [] => s
  end.

(** [if len(s.futures) == 1: s.value = s.futures[0]; s.futures = []] *)
Definition assign_single (s : Space) : Space :=
  if length (futures s) =? 1 then assign_first s else s.

(** ** [class Sudoku] *)

(** The state shared by a whole recursion tree: the set [states] (one set
    object, aliased by every trial board through
    [new_game.states = self.states]) and the class attribute [stats].
    [str] is injective on lists of [None] and integers, so the set of
    strings is kept as a set of layouts. *)
Record Shared := mkShared {
  states : gset (list (option Z));
  cycles : nat;
  recurse : nat
}.

(** [cells] are the Space objects the constructor created; [blocks],
    [rows], [cols], [mod_q] and the [neighbors] of those objects refer to
    them for the life of the board.  [self.spaces] is bound to the same
    objects until [solve] rebinds it to the Space objects of a solved trial
    board: [adopted] holds those once that has happened. *)
Record Sudoku := mkSudoku {
  mod_q : UniqueQueue.t;
  cells : list Space;
  adopted : option (list Space);
  blocks : list (list nat);
  rows : list (list nat);
  cols : list (list nat);
  n : nat;
  depth : nat;
  iter_wide : nat
}.

(** What [self.spaces] holds. *)
Definition spaces (b : Sudoku) : list Space :=
  match adopted b with
  | Some l => l
  | None => cells b
  end.

Definition set_mod_q (q : UniqueQueue.t) (b : Sudoku) : Sudoku :=
  mkSudoku q (cells b) (adopted b) (blocks b) (rows b) (cols b) (n b)
    (depth b) (iter_wide b).
Definition set_cells (l : list Space) (b : Sudoku) : Sudoku :=
  mkSudoku (mod_q b) l (adopted b) (blocks b) (rows b) (cols b) (n b)
    (depth b) (iter_wide b).
Definition set_adopted (a : option (list Space)) (b : Sudoku) : Sudoku :=
  mkSudoku (mod_q b) (cells b) a (blocks b) (rows b) (cols b) (n b)
    (depth b) (iter_wide b).
Definition set_blocks (g : list (list nat)) (b : Sudoku) : Sudoku :=
  mkSudoku (mod_q b) (cells b) (adopted b) g (rows b) (cols b) (n b)
    (depth b) (iter_wide b).
Definition set_rows (g : list (list nat)) (b : Sudoku) : Sudoku :=
  mkSudoku (mod_q b) (cells b) (adopted b) (blocks b) g (cols b) (n b)
    (depth b) (iter_wide b).
Definition set_cols (g : list (list nat)) (b : Sudoku) : Sudoku :=
  mkSudoku (mod_q b) (cells b) (adopted b) (blocks b) (rows b) g (n b)
    (depth b) (iter_wide b).
Definition set_trial (d w : nat) (b : Sudoku) : Sudoku :=
  mkSudoku (mod_q b) (cells b) (adopted b) (blocks b) (rows b) (cols b) (n b)
    d w.

(** Writes through [self.spaces]: they reach the adopted objects when there
    are some, the constructor's own otherwise. *)
Definition set_spaces (l : list Space) (b : Sudoku) : Sudoku :=
  match adopted b with
  | Some _ => set_adopted (Some l) b
  | None => set_cells l b
  end.

(** In-place change of the Space object at position [i]. *)
Definition upd_cell (i : nat) (f : Space -> Space) (b : Sudoku) : Sudoku :=
  set_cells (alter f i (cells b)) b.

(** [self.mod_q.put(s)] *)
Definition enqueue (i : nat) (b : Sudoku) : Sudoku :=
  set_mod_q (UniqueQueue.put i (mod_q b)) b.

(** A [for] loop whose body may raise. *)
Fixpoint for_res {A S} (f : S -> A -> res S) (l : list A) (s : S) : res S :=
  match l with
  | [] => Ok s
  | a :: l' => s' ← f s a; for_res f l' s'
  end.

(** Position arithmetic of the constructor. *)
Definition block_index (n i : nat) : nat := (i / n) mod n + n * (i / (n ^ 2 * n)).
Definition row_index (n i : nat) : nat := i / n ^ 2.
Definition col_index (n i : nat) : nat := i mod n ^ 2.

(** [set.add] of a Space that the set does not hold yet. *)
Definition group_add (i g : nat) (groups : list (list nat)) : list (list nat) :=
  alter (.++ [i]) g groups.

(** [get_state] *)
Definition get_state (b : Sudoku) : list (option Z) := value <$> spaces b.

(** [has_conflict] *)
Definition has_conflict (b : Sudoku) : bool :=
  existsb (fun s => bool_decide (value s = None) && (length (futures s) =? 0))
    (spaces b)
  || existsb (fun s =>
        match value s with
        | None => false
        | Some v =>
            existsb (fun j => bool_decide (value (spaces b !!! j) = Some v))
              (neighbors s)
        end) (spaces b).

(** [is_solved] *)
Definition is_solved (b : Sudoku) : bool :=
  if negb (UniqueQueue.empty (mod_q b)) then false
  else if existsb (fun s => bool_decide (value s = None)) (spaces b) then false
  else if has_conflict b then false
  else true.

(** *** [constraint_solve] *)

(** The pair of statements [s.futures.remove(v); self.mod_q.put(s)], which
    the source writes three times. *)
Definition remove_and_mark (i : nat) (v : Z) (b : Sudoku) : Sudoku :=
  enqueue i (upd_cell i (fun s => set_futures (list_remove v (futures s)) s) b).

(** [if n.value in curr_space.futures: ...remove(n.value); put(curr_space)] *)
Definition drop_neighbor_value (c j : nat) (b : Sudoku) : Sudoku :=
  match value (cells b !!! j) with
  | Some v =>
      if bool_decide (v ∈ futures (cells b !!! c))
      then remove_and_mark c v b
      else b
  | None => b
  end.

(** [if curr_space.value in n.futures: ...remove(curr_space.value); put(n)] *)
Definition drop_own_value (c j : nat) (b : Sudoku) : Sudoku :=
  match value (cells b !!! c) with
  | Some v =>
      if bool_decide (v ∈ futures (cells b !!! j))
      then remove_and_mark j v b
      else b
  | None => b
  end.

(** [if len(n.futures) == 1: n.value = n.futures[0]; n.futures = []; put(n)] *)
Definition settle_neighbor (j : nat) (b : Sudoku) : Sudoku :=
  if length (futures (cells b !!! j)) =? 1
  then enqueue j (upd_cell j assign_first b)
  else b.

(** The body of [for n in curr_space.neighbors]. *)
Definition visit_neighbor (c : nat) (b : Sudoku) (j : nat) : Sudoku :=
  settle_neighbor j (drop_own_value c j (drop_neighbor_value c j b)).

(** The body of the [while] loop, after [curr_space = self.mod_q.get()]. *)
Definition propagate_from (c : nat) (b : Sudoku) : Sudoku :=
  let b1 := upd_cell c assign_single b in
  foldl (visit_neighbor c) b1 (neighbors (cells b1 !!! c)).

(** [while not self.mod_q.empty(): ...], at most [fuel] iterations. *)
Fixpoint constraint_solve_loop (fuel : nat) (b : Sudoku) : res Sudoku :=
  if UniqueQueue.empty (mod_q b) then Ok b
  else
    match fuel with
    | 0 => OutOfFuel
    | S fuel' =>
        '(item, q) ← UniqueQueue.get (mod_q b);
        match item with
        | None => Raise AttributeError
        | Some c => constraint_solve_loop fuel' (propagate_from c (set_mod_q q b))
        end
    end.

(** The loop's variant: candidates left on the board plus pending entries. *)
Definition total_futures (l : list Space) : nat :=
  sum_list (length ∘ futures <$> l).
Definition variant (b : Sudoku) : nat :=
  total_futures (cells b) + length (UniqueQueue.que (mod_q b)).

(** [constraint_solve], run with as many iterations as the variant allows
    ([constraint_solve_loop_spec] shows that none is missing). *)
Definition constraint_solve (b : Sudoku) : res Sudoku :=
  constraint_solve_loop (variant b) b.

(** *** [update_naked_sets] *)

(** [unk_s]: the Spaces of the group whose value is [None]. *)
Definition unknowns (b : Sudoku) (g : list nat) : list nat :=
  filter (fun i => value (cells b !!! i) = None) g.

(** [set_nums]: the union of the candidates of the subset's Spaces. *)
Definition set_nums (b : Sudoku) (subset : list nat) : gset Z :=
  foldl (fun acc i => acc ∪ list_to_set (futures (cells b !!! i))) ∅ subset.

(** [if n in s.futures: s.futures.remove(n); self.mod_q.put(s)] *)
Definition strike (i : nat) (b : Sudoku) (v : Z) : Sudoku :=
  if bool_decide (v ∈ futures (cells b !!! i))
  then remove_and_mark i v b
  else b.

(** The body of [for s in unk_s].  The loop [for n in set_nums] takes the
    values of the set in some order, here that of [elements]; on candidate
    lists without repetition what is left does not depend on the order
    ([strike_outside_futures]). *)
Definition strike_outside (subset : list nat) (nums : gset Z)
    (b : Sudoku) (i : nat) : Sudoku :=
  if bool_decide (i ∈ subset) then b
  else foldl (strike i) b (elements nums).

(** The body of [for subset in p_set]. *)
Definition naked_step (unk_s : list nat) (b : Sudoku) (subset : list nat) : Sudoku :=
  let nums := set_nums b subset in
  if (size nums =? length subset) && (length subset <? length unk_s)
  then foldl (strike_outside subset nums) b unk_s
  else b.

(** [groups.extend([self.blocks[i], self.rows[i], self.cols[i]])] for
    [i in range(self.n**2)]. *)
Definition all_groups (b : Sudoku) : list (list nat) :=
  seq 0 (n b ^ 2) ≫= fun i => [blocks b !!! i; rows b !!! i; cols b !!! i].

Section Iteration.

(** The order in which a set of Spaces, and a set of tuples of Spaces, is
    iterated. *)
Variable iter_spaces : list nat -> list nat.
Variable iter_tuples : list (list nat) -> list (list nat).

(** The body of [for g in groups]. *)
Definition naked_group (b : Sudoku) (g : list nat) : Sudoku :=
  let unk_s := unknowns b g in
  if 0 <? length unk_s
  then foldl (naked_step unk_s) b (iter_tuples (powerset unk_s))
  else b.

Definition update_naked_sets (b : Sudoku) : Sudoku :=
  foldl naked_group b (all_groups b).

(** *** The constructor *)

(** The second loop of [__init__]: the Space for position [i] is created
    from [starting_layout[i]] (an [IndexError] past the end of the list),
    added to its three groups, stored and marked as modified.  The three
    group indices are below [n^2] for [i < n^4] ([block_index_lt],
    [row_index_lt], [col_index_lt]), so the dictionaries of groups always
    have the key. *)
Definition place_space (starting_layout : list (option Z)) (n : nat)
    (b : Sudoku) (i : nat) : res Sudoku :=
  match starting_layout !! i with
  | None => Raise IndexError
  | Some v =>
      Ok (enqueue i
           (set_cells (cells b ++ [Space_init v n])
             (set_cols (group_add i (col_index n i) (cols b))
               (set_rows (group_add i (row_index n i) (rows b))
                 (set_blocks (group_add i (block_index n i) (blocks b)) b)))))
  end.

(** [Space.set_groups]: the union of the groups without the Space itself. *)
Definition set_groups (i : nat) (groups : list (list nat)) (s : Space) : Space :=
  set_neighbors
    (iter_spaces (filter (fun j => j ≠ i) (remove_dups (concat groups)))) s.

(** The third loop of [__init__]. *)
Definition link_space (n : nat) (b : Sudoku) (i : nat) : Sudoku :=
  upd_cell i
    (set_groups i [blocks b !!! block_index n i;
                   rows b !!! row_index n i;
                   cols b !!! col_index n i]) b.

(** [Sudoku.__init__(starting_layout, n)].  The groups hold their Spaces in
    the order they are iterated from then on. *)
Definition Sudoku_init (starting_layout : list (option Z)) (n : nat) : res Sudoku :=
  let groups0 := replicate (n ^ 2) [] in
  let b0 := mkSudoku UniqueQueue.new [] None groups0 groups0 groups0 n 0 0 in
  b1 ← for_res (place_space starting_layout n) (seq 0 (n ^ 4)) b0;
  let b2 := foldl (link_space n) b1 (seq 0 (n ^ 4)) in
  Ok (set_cols (iter_spaces <$> cols b2)
       (set_rows (iter_spaces <$> rows b2)
         (set_blocks (iter_spaces <$> blocks b2) b2))).

(** *** [solve] and [recursive_backtrack] *)

(** The [while] loop of [solve], at most [fuel] iterations. *)
Fixpoint solve_loop (fuel : nat) (st : Shared) (b : Sudoku) : res (Shared * Sudoku) :=
  if negb (is_solved b) && negb (has_conflict b) then
    match fuel with
    | 0 => OutOfFuel
    | S fuel' =>
        let start_state := get_state b in
        b1 ← constraint_solve b;
        let b2 := update_naked_sets b1 in
        if bool_decide (get_state b2 = start_state) && UniqueQueue.empty (mod_q b2)
        then Ok (st, b2)
        else solve_loop fuel' (mkShared (states st) (S (cycles st)) (recurse st)) b2
    end
  else Ok (st, b).

(** [range(start, 0, -1)]: [start], [start - 1], ..., [1]. *)
Definition range_down (start : nat) : list nat := rev (seq 1 start).

Section Backtrack.

(** One trial at threshold [i]: a board built from the layout, linked to
    the shared state, solved; the result is its [spaces] when it
    [is_solved], [None] otherwise. *)
Variable trial :
  nat -> Shared -> list (option Z) -> res (Shared * option (list Space)).

(** The body of the loop over [j], once [v = s.futures[j]] is read, for
    the Space at position [k]; [next] is the rest of the loop.  The result
    holds the Spaces of the current board and, when a trial was solved, the
    Spaces the call returns at once. *)
Definition try_candidate (v : Z) (k i : nat) (st : Shared) (sp : list Space)
    (next : Shared -> list Space -> res (Shared * list Space * option (list Space)))
    : res (Shared * list Space * option (list Space)) :=
  let st1 := mkShared (states st) (cycles st) (S (recurse st)) in
  let new_state := <[k := Some v]> (value <$> sp) in
  if bool_decide (new_state ∈ states st1) then next st1 sp
  else
    let st2 := mkShared (states st1 ∪ {[new_state]}) (cycles st1) (recurse st1) in
    '(st3, won) ← trial i st2 new_state;
    match won with
    | Some w => Ok (st3, sp, Some w)
    | None =>
        let sp1 := alter (fun s => set_futures (list_remove v (futures s)) s) k sp in
        if length (futures (sp1 !!! k)) =? 1
        then Ok (st3, alter assign_first k sp1, None)
        else next st3 sp1
    end.

(** The loop [for j in range(len(s.futures) - 1, 0, -1)], [js] being the
    values of [j] still to come.  [s.futures[j]] raises [IndexError] past
    the end of the list. *)
Fixpoint sweep (js : list nat) (k i : nat) (st : Shared) (sp : list Space)
    : res (Shared * list Space * option (list Space)) :=
  match js with
  | [] => Ok (st, sp, None)
  | j :: js' =>
      match futures (sp !!! k) !! j with
      | None => Raise IndexError
      | Some v => try_candidate v k i st sp (sweep js' k i)
      end
  end.

(** The same loop told by candidate values instead of indices: [vs] are
    the candidates to go through, in order. *)
Fixpoint sweep_values (vs : list Z) (k i : nat) (st : Shared) (sp : list Space)
    : res (Shared * list Space * option (list Space)) :=
  match vs with
  | [] => Ok (st, sp, None)
  | v :: vs' => try_candidate v k i st sp (sweep_values vs' k i)
  end.

(** The loop [for k, s in self.spaces.items()]. *)
Fixpoint backtrack_cells (ks : list nat) (i : nat) (st : Shared) (sp : list Space)
    : res (Shared * list Space * option (list Space)) :=
  match ks with
  | [] => Ok (st, sp, None)
  | k :: ks' =>
      let len := length (futures (sp !!! k)) in
      if (2 <=? len) && (len <=? i) then
        '(st1, sp1, won) ← sweep (range_down (len - 1)) k i st sp;
        match won with
        | Some w => Ok (st1, sp1, Some w)
        | None => backtrack_cells ks' i st1 sp1
        end
      else backtrack_cells ks' i st sp
  end.

(** [recursive_backtrack(i)].  The Spaces of the current board are changed
    in place; the returned dictionary is that of a solved trial ([Some]) or
    [self.spaces] itself ([None]). *)
Definition recursive_backtrack (b : Sudoku) (i : nat) (st : Shared)
    : res (Shared * Sudoku * option (list Space)) :=
  '(st1, sp1, won) ← backtrack_cells (seq 0 (length (spaces b))) i st (spaces b);
  Ok (st1, set_spaces sp1 b, won).

(** [self.spaces = self.recursive_backtrack(i)] *)
Definition backtrack_and_rebind (acc : Shared * Sudoku) (i : nat)
    : res (Shared * Sudoku) :=
  '(st1, b1, won) ← recursive_backtrack acc.2 i acc.1;
  Ok (st1, match won with
           | Some w => set_adopted (Some w) b1
           | None => b1
           end).

End Backtrack.

(** The statements of [recursive_backtrack] between
    [self.states.add(...)] and [if new_game.is_solved()]: the trial board is
    built from the layout, given the shared state, its depth and its
    threshold, and solved.  [solve_rec] is the recursive call
    [new_game.solve()]. *)
Definition run_trial (solve_rec : Shared -> Sudoku -> res (Shared * Sudoku))
    (n0 d : nat) (i : nat) (st : Shared) (new_state : list (option Z))
    : res (Shared * option (list Space)) :=
  new_game ← Sudoku_init new_state n0;
  '(st', g) ← solve_rec st (set_trial (S d) i new_game);
  Ok (st', if is_solved g then Some (spaces g) else None).

(** The second half of [solve]: [if not self.is_solved() and not
    self.has_conflict(): ...]. *)
Definition begin_backtrace (solve_rec : Shared -> Sudoku -> res (Shared * Sudoku))
    (st : Shared) (b : Sudoku) : res (Shared * Sudoku) :=
  if negb (is_solved b) && negb (has_conflict b) then
    if depth b =? 0 then
      for_res (backtrack_and_rebind (run_trial solve_rec (n b) (depth b)))
        (seq 2 (n b ^ 2 - 2))
        (mkShared ∅ (cycles st) (recurse st), b)
    else
      backtrack_and_rebind (run_trial solve_rec (n b) (depth b)) (st, b) (iter_wide b)
  else Ok (st, b).

(** [solve]; [fuel] bounds the nesting of trial boards. *)
Fixpoint solve (fuel : nat) (st : Shared) (b : Sudoku) : res (Shared * Sudoku) :=
  match fuel with
  | 0 => OutOfFuel
  | S fuel' =>
      '(st1, b1) ← solve_loop (S (total_futures (cells b))) st b;
      begin_backtrace (solve fuel') st1 b1
  end.

End Iteration.

(** * Vocabulary of the statements *)

(** What the second loop has built after [m] rounds. *)
Record placed (starting_layout : list (option Z)) (n0 m : nat) (b0 b : Sudoku) : Prop := {
  placed_cells :
    cells b = cells b0 ++ ((fun v => Space_init v n0) <$> take m starting_layout);
  placed_adopted : adopted b = adopted b0;
  placed_n : n b = n b0;
  placed_depth : depth b = depth b0;
  placed_iter_wide : iter_wide b = iter_wide b0;
  placed_mod_q : mod_q b = foldl (fun q i => UniqueQueue.put i q) (mod_q b0) (seq 0 m);
  placed_blocks :
    blocks b = foldl (fun g i => group_add i (block_index n0 i) g) (blocks b0) (seq 0 m);
  placed_rows :
    rows b = foldl (fun g i => group_add i (row_index n0 i) g) (rows b0) (seq 0 m);
  placed_cols :
    cols b = foldl (fun g i => group_add i (col_index n0 i) g) (cols b0) (seq 0 m)
}.


(** Candidate lists only lose entries from [l] to [l']. *)
Definition candidates_shrink (l l' : list Space) : Prop :=
  length l' = length l
  ∧ ∀ i, futures (l' !!! i) `sublist_of` futures (l !!! i).

(** How a round may change the value of a Space: not at all, or by
    assigning a Space that had candidates, whose list is emptied. *)
Definition value_step (s s' : Space) : Prop :=
  value s' = value s
  ∨ (futures s ≠ [] ∧ futures s' = [] ∧ value s' ≠ None).

(** What one round of a loop over the board may do: candidates are only
    removed, values are only assigned, the worklist stays consistent,
    nothing else moves. *)
Record quiet_step (b b' : Sudoku) : Prop := {
  quiet_shrink : candidates_shrink (cells b) (cells b');
  quiet_values : ∀ i, value_step (cells b !!! i) (cells b' !!! i);
  quiet_queue :
    UniqueQueue.consistent (mod_q b) -> UniqueQueue.consistent (mod_q b');
  quiet_neighbors : neighbors <$> cells b' = neighbors <$> cells b;
  quiet_adopted : adopted b' = adopted b;
  quiet_blocks : blocks b' = blocks b;
  quiet_rows : rows b' = rows b;
  quiet_cols : cols b' = cols b;
  quiet_n : n b' = n b;
  quiet_depth : depth b' = depth b;
  quiet_iter_wide : iter_wide b' = iter_wide b
}.


(** How a backtracking pass may change one Space.  [kept]: the value
    stays and candidates other than the first are removed.  [settled]: the
    Space is given one of its candidates (the first one of a list without
    repetition) and its list is emptied.  [eliminated i]: untouched, or
    eligible at threshold [i] and then [kept] or [settled]. *)
Definition kept (s s' : Space) : Prop :=
  value s' = value s
  ∧ futures s' `sublist_of` futures s
  ∧ (NoDup (futures s) -> head (futures s') = head (futures s)).

Definition settled (s s' : Space) : Prop :=
  futures s' = []
  ∧ ∃ v, value s' = Some v ∧ v ∈ futures s
         ∧ (NoDup (futures s) -> head (futures s) = Some v).

Definition eliminated (i : nat) (s s' : Space) : Prop :=
  neighbors s' = neighbors s
  ∧ (s' = s
     ∨ (2 ≤ length (futures s) ≤ i ∧ (kept s s' ∨ settled s s'))).

(** The positions of row [r], of column [c] and of block [g] of a board of
    side [n^2], and the [3 * n^2] groups of the board. *)
Definition row_cells (n r : nat) : list nat :=
  (fun c => n ^ 2 * r + c) <$> seq 0 (n ^ 2).
Definition col_cells (n c : nat) : list nat :=
  (fun r => n ^ 2 * r + c) <$> seq 0 (n ^ 2).
Definition block_cells (n g : nat) : list nat :=
  seq 0 n ≫= fun rr =>
    (fun cc => n ^ 2 * (n * (g / n) + rr) + (n * (g mod n) + cc)) <$> seq 0 n.
Definition board_groups (n : nat) : list (list nat) :=
  seq 0 (n ^ 2) ≫= fun g => [block_cells n g; row_cells n g; col_cells n g].

(** The values a board shows at the positions of a group. *)
Definition group_values (b : Sudoku) (g : list nat) : list (option Z) :=
  (fun i => value (spaces b !!! i)) <$> g.

(** The values [1], ..., [n^2]. *)
Definition one_to_N (n : nat) : list (option Z) :=
  (fun v => Some (Z.of_nat v)) <$> seq 1 (n ^ 2).

(** Two positions share a row, a column or a block. *)
Definition same_group (n i j : nat) : Prop :=
  row_index n i = row_index n j
  ∨ col_index n i = col_index n j
  ∨ block_index n i = block_index n j.

(** The Spaces of the board are linked as the constructor links them: one
    Space per position, whose neighbors are the other positions of its
    row, column and block. *)
Definition well_linked (b : Sudoku) : Prop :=
  length (spaces b) = n b ^ 4
  ∧ Forall (fun i =>
      Forall (fun j =>
        j ∈ neighbors (spaces b !!! i) ↔ i ≠ j ∧ same_group (n b) i j)
        (seq 0 (n b ^ 4)))
      (seq 0 (n b ^ 4)).

#[global] Instance same_group_dec n i j : Decision (same_group n i j).
Proof. unfold same_group. apply _. Defined.

#[global] Instance well_linked_dec b : Decision (well_linked b).
Proof. unfold well_linked. apply _. Defined.

(** Every value of the board lies in [1..n^2]. *)
Definition in_range (b : Sudoku) : Prop :=
  Forall (fun s => match value s with
                   | Some v => (1 ≤ v ≤ Z.of_nat (n b ^ 2))%Z
                   | None => True
                   end) (spaces b).

#[global] Instance in_range_dec b : Decision (in_range b).
Proof. apply Forall_dec. intros s. destruct (value s); apply _. Defined.

(** The entries of a layout that are not filled in. *)
Definition holes (layout : list (option Z)) : nat :=
  length (filter (fun v => v = None) layout).

(** What the solver may do to a Space: remove candidates, and assign it
    when it had candidates, emptying its list; its neighbors stay. *)
Definition narrowed (s s' : Space) : Prop :=
  neighbors s' = neighbors s
  ∧ futures s' `sublist_of` futures s
  ∧ value_step s s'.

(** The Spaces of a board of [n0^4] positions, as the constructor makes them
    and the solver keeps them: an assigned Space has no candidates, no
    candidate is listed twice, and the neighbors of a Space are the other
    positions of its row, column and block. *)
Record arena_ok (n0 : nat) (l : list Space) : Prop := {
  arena_length : length l = n0 ^ 4;
  arena_assigned : ∀ i, value (l !!! i) ≠ None -> futures (l !!! i) = [];
  arena_NoDup : ∀ i, NoDup (futures (l !!! i));
  arena_linked : ∀ i j, i < n0 ^ 4 -> j < n0 ^ 4 ->
    (j ∈ neighbors (l !!! i) ↔ i ≠ j ∧ same_group n0 i j)
}.

(** A board in the state the program keeps it in: a consistent worklist,
    sound Spaces of its own, and sound Spaces in [self.spaces]. *)
Record sound (b : Sudoku) : Prop := {
  sound_queue : UniqueQueue.consistent (mod_q b);
  sound_cells : arena_ok (n b) (cells b);
  sound_spaces : arena_ok (n b) (spaces b)
}.

(** [solve_rec] returns on every sound board with fewer than [budget]
    unassigned cells, and leaves a sound board of the same size with no
    more unassigned cells. *)
Definition solves (budget : nat)
    (solve_rec : Shared -> Sudoku -> res (Shared * Sudoku)) : Prop :=
  ∀ st b, sound b -> holes (get_state b) < budget ->
    ∃ st' b', solve_rec st b = Ok (st', b')
      ∧ sound b' ∧ n b' = n b
      ∧ holes (get_state b') ≤ holes (get_state b).

(** A group of the board: [n^2] different positions of the board, any two
    of them in one row, one column or one block. *)
Record is_group (n : nat) (g : list nat) : Prop := {
  group_length : length g = n ^ 2;
  group_NoDup : NoDup g;
  group_bound : ∀ i, i ∈ g -> i < n ^ 4;
  group_same : ∀ i j, i ∈ g -> j ∈ g -> same_group n i j
}.


(** * Boards for the examples *)

(** The shared state of a first call: no layout visited, counters reset.
    The examples iterate every set in the order it was filled ([id]). *)
Definition fresh : Shared := mkShared ∅ 0 0.

(** A 4x4 layout with nothing filled in. *)
Definition empty_4x4 : list (option Z) := replicate 16 None.

(** A full 4x4 grid, solved. *)
Definition full_4x4 : list (option Z) :=
  Some <$> [1; 2; 3; 4;  3; 4; 1; 2;  2; 1; 4; 3;  4; 3; 2; 1]%Z.

(** The same grid written with the digits 0 to 3. *)
Definition digits_4x4 : list (option Z) :=
  Some <$> [0; 1; 2; 3;  2; 3; 0; 1;  1; 0; 3; 2;  3; 2; 1; 0]%Z.

(** A 4x4 layout with a value outside [1..4], and one with an entry too
    many. *)
Definition wide_4x4 : list (option Z) := <[0 := Some 9%Z]> empty_4x4.
Definition long_4x4 : list (option Z) := empty_4x4 ++ [Some 1%Z].

(** A 9x9 puzzle.  [grid_9x9] is a solved grid; the puzzle shows its 2s,
    3s, 4s and 7s and three more cells: the 5 of row 0, the 8 of column 0
    and the 6 of the first block.  The first row reads
    [_ 2 3 4 5 _ 7 _ _]. *)
Definition grid_9x9 (p : nat) : Z :=
  Z.of_nat ((3 * ((p / 9) mod 3) + (p / 9) / 3 + p mod 9) mod 9 + 1).
Definition puzzle_9x9 : list (option Z) :=
  (fun p =>
     if bool_decide (grid_9x9 p ∈ [2; 3; 4; 7]%Z) || bool_decide (p ∈ [4; 11; 45])
     then Some (grid_9x9 p) else None) <$> seq 0 81.

(** The puzzle after the constructor and the loop of [solve], which is
    where [solve] starts its backtrace. *)
Definition stuck_9x9 : res (Shared * Sudoku) :=
  b ← Sudoku_init id puzzle_9x9 3;
  solve_loop id (S (total_futures (cells b))) fresh b.

(** The trials of a board of depth [0]: real ones, nested as deep as
    [fuel] (a trial that needs more ends in [OutOfFuel], never in a failed
    trial); and trials that all fail. *)
Definition real_trial (n0 fuel : nat) :=
  run_trial id (solve id id fuel) n0 0.
Definition failing_trial (i : nat) (st : Shared) (new_state : list (option Z))
    : res (Shared * option (list Space)) :=
  Ok (st, None).

(** The board the constructor builds from a layout that is long enough. *)
Definition built (layout : list (option Z)) (n0 : nat) : Sudoku :=
  match Sudoku_init id layout n0 with
  | Ok b => b
  | _ => mkSudoku UniqueQueue.new [] None [] [] [] n0 0 0
  end.

(** That board once [solve] has returned. *)
Definition solved (layout : list (option Z)) (n0 : nat) : Sudoku :=
  match solve id id 1 fresh (built layout n0) with
  | Ok (_, b) => b
  | _ => built layout n0
  end.

(** The values of the Spaces a call of [recursive_backtrack] returns, when
    they are those of a solved trial. *)
Definition returned_values (won : option (list Space)) : option (list (option Z)) :=
  match won with
  | Some w => Some (value <$> w)
  | None => None
  end.

(** The subset is a naked set of the group's unknowns on board [b]: the
    test [len(set_nums) == len(subset) < len(unk_s)]. *)
Definition is_naked (unk_s : list nat) (b : Sudoku) (subset : list nat) : Prop :=
  size (set_nums b subset) = length subset ∧ length subset < length unk_s.

(** One examination of the pass: a subset, with the unknowns of its group. *)
Definition examine (b : Sudoku) (e : list nat * list nat) : Sudoku :=
  naked_step e.1 b e.2.

(** The examinations of a pass over board [b], in the order they are made:
    for every group in turn, every tuple of [p_set]. *)
Definition naked_schedule (iter_tuples : list (list nat) -> list (list nat))
    (b : Sudoku) : list (list nat * list nat) :=
  all_groups b ≫= fun g =>
    (fun subset => (unknowns b g, subset)) <$> iter_tuples (powerset (unknowns b g)).

(** A step that only removes candidates and marks the Spaces it changed:
    values stay, and a Space is pending afterwards exactly when it was
    pending before or has lost a candidate. *)
Record marked_step (b b' : Sudoku) : Prop := {
  marked_quiet : quiet_step b b';
  marked_values : value <$> cells b' = value <$> cells b;
  marked_queue :
    UniqueQueue.consistent (mod_q b) ->
    ∀ x, x ∈ UniqueQueue.que (mod_q b') ↔
         x ∈ UniqueQueue.que (mod_q b)
         ∨ futures (cells b' !!! x) ≠ futures (cells b !!! x)
}.

(** A 4x4 layout whose first row starts with 1 and 2: the two other cells
    of the row can only hold 3 and 4. *)
Definition pair_4x4 : list (option Z) :=
  <[0 := Some 1%Z]> (<[1 := Some 2%Z]> empty_4x4).

(** The board built from a layout, after [constraint_solve]. *)
Definition propagated (layout : list (option Z)) (n0 : nat) : Sudoku :=
  match constraint_solve (built layout n0) with
  | Ok b => b
  | _ => built layout n0
  end.
(** * Properties *)

#[local] Arguments Nat.pow : simpl never.

(** ** The worklist *)

Lemma uq_consistent_new : UniqueQueue.consistent UniqueQueue.new.
Proof.
  split; simpl.
  - constructor.
  - intros x. set_solver.
Qed.

Lemma uq_consistent_put q item :
  UniqueQueue.consistent q -> UniqueQueue.consistent (UniqueQueue.put item q).
Proof.
  intros [Hnd Hmem]. unfold UniqueQueue.put.
  destruct (decide (item ∈ UniqueQueue.set q)) as [Hin|Hnin]; [by split|].
  split; simpl.
  - apply NoDup_app. split_and!; [done| |apply NoDup_singleton].
    intros x Hx Hx'. apply list_elem_of_singleton in Hx' as ->.
    by apply Hnin, Hmem.
  - intros x. rewrite elem_of_union, elem_of_singleton, elem_of_app,
      list_elem_of_singleton, Hmem. done.
Qed.

Lemma uq_consistent_get q r q' :
  UniqueQueue.consistent q -> UniqueQueue.get q = Ok (r, q') ->
  UniqueQueue.consistent q'.
Proof.
  intros [Hnd Hmem]. unfold UniqueQueue.get.
  destruct (UniqueQueue.que q) as [|item rest] eqn:Hq.
  - intros [= <- <-]. split; [by rewrite Hq|]. intros x. by rewrite Hmem, Hq.
  - destruct (decide _) as [Hin|]; [|done]. intros [= <- <-].
    apply NoDup_cons in Hnd as [Hnotin Hnd].
    split; simpl; [done|]. intros x.
    rewrite elem_of_difference, elem_of_singleton, Hmem, elem_of_cons.
    split; [intros [[->|?] ?]; done|].
    intros Hx. split; [by right|]. by intros ->.
Qed.

Lemma uq_reachable_consistent q :
  UniqueQueue.reachable q -> UniqueQueue.consistent q.
Proof.
  induction 1 as [|q item _ IH|q r q' _ IH Hget].
  - apply uq_consistent_new.
  - by apply uq_consistent_put.
  - by eapply uq_consistent_get.
Qed.

Lemma uq_get_consistent q :
  UniqueQueue.consistent q ->
  match UniqueQueue.que q with
  | [] => UniqueQueue.get q = Ok (None, q)
  | item :: rest =>
      UniqueQueue.get q =
        Ok (Some item, UniqueQueue.mk rest (UniqueQueue.set q ∖ {[item]}))
  end.
Proof.
  intros [_ Hmem]. unfold UniqueQueue.get.
  destruct (UniqueQueue.que q) as [|item rest] eqn:Hq; [done|].
  destruct (decide _) as [|Hn]; [done|]. destruct Hn. apply Hmem. rewrite ?Hq. by left.
Qed.

(** C9.  The worklist is a FIFO queue with membership deduplication.  In
    every state a queue reaches from its creation through [put] and [get]:
    no entry is pending twice, and the membership set holds exactly the
    pending entries; [put] of a pending entry changes nothing, [put] of any
    other entry appends it at the back; [get] hands out the oldest entry,
    takes it out of the membership set, and a later [put] of it enqueues it
    again. *)
Theorem unique_queue_fifo_dedup (q : UniqueQueue.t) :
  UniqueQueue.reachable q ->
  NoDup (UniqueQueue.que q)
  ∧ (∀ x, x ∈ UniqueQueue.set q ↔ x ∈ UniqueQueue.que q)
  ∧ (∀ x, x ∈ UniqueQueue.que q -> UniqueQueue.put x q = q)
  ∧ (∀ x, x ∉ UniqueQueue.que q ->
       UniqueQueue.que (UniqueQueue.put x q) = UniqueQueue.que q ++ [x])
  ∧ match UniqueQueue.que q with
    | [] => UniqueQueue.get q = Ok (None, q)
    | x :: rest =>
        ∃ q', (UniqueQueue.get q = Ok (Some x, q'))
              ∧ UniqueQueue.que q' = rest
              ∧ (x ∉ UniqueQueue.set q')
              ∧ UniqueQueue.que (UniqueQueue.put x q') = rest ++ [x]
    end.
Proof.
  intros Hr. pose proof (uq_reachable_consistent q Hr) as Hc.
  pose proof (uq_get_consistent q Hc) as Hget.
  destruct Hc as [Hnd Hmem]. split_and!; [done..| | |].
  - intros x Hx. unfold UniqueQueue.put.
    destruct (decide _) as [|Hn]; [done|]. exfalso. by apply Hn, Hmem.
  - intros x Hx. unfold UniqueQueue.put.
    destruct (decide _) as [Hin|]; [|done]. by apply Hmem in Hin.
  - destruct (UniqueQueue.que q) as [|x rest]; [done|].
    eexists. split; [exact Hget|]. simpl. split; [done|].
    assert (x ∉ UniqueQueue.set q ∖ {[x]}) as Hx.
    { intros [_ Hne]%elem_of_difference. by apply Hne, elem_of_singleton. }
    split; [done|]. unfold UniqueQueue.put. simpl.
    by destruct (decide _).
Qed.

(** A queue that saw [put 1], [put 2], [put 1] holds [1; 2]. *)
Lemma unique_queue_fifo_dedup_witness :
  UniqueQueue.que
    (UniqueQueue.put 1 (UniqueQueue.put 2 (UniqueQueue.put 1 UniqueQueue.new)))
  = [1; 2]
  ∧ NoDup (UniqueQueue.que
      (UniqueQueue.put 1 (UniqueQueue.put 2 (UniqueQueue.put 1 UniqueQueue.new)))).
Proof.
  split; [reflexivity|].
  apply (unique_queue_fifo_dedup
           (UniqueQueue.put 1 (UniqueQueue.put 2 (UniqueQueue.put 1 UniqueQueue.new)))).
  repeat constructor.
Defined.

(** ** Reading a board *)

Lemma existsb_elem_of {A} (f : A -> bool) (l : list A) :
  existsb f l = true ↔ ∃ x, x ∈ l ∧ f x = true.
Proof.
  rewrite existsb_exists. split; intros (x & Hx & Hf); exists x;
    (split; [by apply list_elem_of_In|done]).
Qed.

Lemma lookup_total_value_Some (l : list Space) j v :
  value (l !!! j) = Some v ↔ ∃ t, l !! j = Some t ∧ value t = Some v.
Proof.
  rewrite list_lookup_total_alt. destruct (l !! j) as [t|]; simpl.
  - split; [by eauto|]. by intros (? & [= <-] & ?).
  - split; [done|]. by intros (? & ? & ?).
Qed.

Lemma has_conflict_true (b : Sudoku) :
  has_conflict b = true ↔
    (∃ s, s ∈ spaces b ∧ value s = None ∧ futures s = [])
    ∨ (∃ s v j t, s ∈ spaces b ∧ value s = Some v ∧ j ∈ neighbors s
                  ∧ spaces b !! j = Some t ∧ value t = Some v).
Proof.
  unfold has_conflict. rewrite orb_true_iff, !existsb_elem_of.
  apply Morphisms_Prop.or_iff_morphism.
  - split.
    + intros (s & Hs & Hc). apply andb_true_iff in Hc as [Hv Hl].
      apply bool_decide_eq_true in Hv. apply Nat.eqb_eq in Hl.
      exists s. split_and!; [done..|]. by destruct (futures s).
    + intros (s & Hs & Hv & Hf). exists s. split; [done|].
      rewrite Hf. simpl. rewrite andb_true_r. by apply bool_decide_eq_true.
  - split.
    + intros (s & Hs & Hc). destruct (value s) as [v|] eqn:Hv; [|done].
      apply existsb_elem_of in Hc as (j & Hj & Hc).
      apply bool_decide_eq_true, lookup_total_value_Some in Hc as (t & Ht & Htv).
      by exists s, v, j, t.
    + intros (s & v & j & t & Hs & Hv & Hj & Ht & Htv). exists s. split; [done|].
      rewrite Hv. apply existsb_elem_of. exists j. split; [done|].
      apply bool_decide_eq_true, lookup_total_value_Some. eauto.
Qed.

(** C6.  [has_conflict] holds exactly when some unassigned Space has no
    candidate left or some assigned Space has a neighbor assigned the same
    value; [is_solved] holds exactly when the worklist is empty, every
    Space is assigned and [has_conflict] does not hold. *)
Theorem conflict_and_solved_iff (b : Sudoku) :
  (has_conflict b = true ↔
     (∃ s, s ∈ spaces b ∧ value s = None ∧ futures s = [])
     ∨ (∃ s v j t, s ∈ spaces b ∧ value s = Some v ∧ j ∈ neighbors s
                   ∧ spaces b !! j = Some t ∧ value t = Some v))
  ∧ (is_solved b = true ↔
       UniqueQueue.que (mod_q b) = []
       ∧ (∀ s, s ∈ spaces b -> value s ≠ None)
       ∧ has_conflict b = false).
Proof.
  split; [apply has_conflict_true|].
  unfold is_solved, UniqueQueue.empty.
  destruct (UniqueQueue.que (mod_q b)) as [|x rest] eqn:Hq; simpl.
  - destruct (existsb _ (spaces b)) eqn:Hex.
    + split; [done|]. intros (_ & Hall & _).
      apply existsb_elem_of in Hex as (s & Hs & Hv).
      apply bool_decide_eq_true in Hv. by destruct (Hall s Hs).
    + assert (∀ s, s ∈ spaces b -> value s ≠ None) as Hall.
      { intros s Hs Hv. apply not_true_iff_false in Hex. apply Hex.
        apply existsb_elem_of. exists s. split; [done|].
        by apply bool_decide_eq_true. }
      destruct (has_conflict b).
      * split; [done|]. by intros (_ & _ & ?).
      * by split.
  - split; [done|]. by intros (? & _).
Qed.

(** ** The constructor *)

Lemma for_res_app {A S} (f : S -> A -> res S) l1 l2 s :
  for_res f (l1 ++ l2) s = s' ← for_res f l1 s; for_res f l2 s'.
Proof.
  revert s. induction l1 as [|a l1 IH]; intros s; simpl; [done|].
  destruct (f s a); simpl; [apply IH|done..].
Qed.

Lemma place_loop starting_layout n0 m b0 :
  m ≤ length starting_layout ->
  ∃ b, for_res (place_space starting_layout n0) (seq 0 m) b0 = Ok b
       ∧ placed starting_layout n0 m b0 b.
Proof.
  induction m as [|m IH]; intros Hm.
  - exists b0. split; [done|]. split; simpl; try done.
    by rewrite ?take_0, ?app_nil_r.
  - destruct IH as (b & Hb & Hp); [lia|].
    destruct (lookup_lt_is_Some_2 starting_layout m) as [v Hv]; [lia|].
    rewrite seq_S, for_res_app, Hb. simpl. unfold place_space. rewrite Hv.
    eexists. split; [reflexivity|]. destruct Hp.
    split; rewrite ?seq_S, ?foldl_app; simpl; try congruence.
    rewrite placed_cells0, (take_S_r _ _ _ Hv), fmap_app, app_assoc. done.
Qed.

Lemma place_loop_short starting_layout n0 m b0 :
  length starting_layout < m ->
  for_res (place_space starting_layout n0) (seq 0 m) b0 = Raise IndexError.
Proof.
  intros Hm.
  replace m with (length starting_layout + S (m - S (length starting_layout))) by lia.
  rewrite seq_app, for_res_app.
  destruct (place_loop starting_layout n0 (length starting_layout) b0) as (b & -> & _);
    [done|].
  simpl. unfold place_space. rewrite lookup_ge_None_2; [done|lia].
Qed.

Lemma fmap_alter_frame {A B} (f : A -> B) (g : A -> A) (l : list A) i :
  (∀ x, f (g x) = f x) -> f <$> alter g i l = f <$> l.
Proof.
  intros Hfg. revert i. induction l as [|x l IH]; intros [|i]; simpl; [done..| |].
  - by rewrite Hfg.
  - f_equal. apply IH.
Qed.

Lemma fmap_value_Space_init n0 (l : list (option Z)) :
  value <$> ((fun v => Space_init v n0) <$> l) = l.
Proof. induction l as [|x l IH]; [done|]. rewrite !fmap_cons, IH. done. Qed.

Section Constructor.

Variable iter_spaces : list nat -> list nat.

Lemma link_loop_frame n0 l b :
  let b' := foldl (link_space iter_spaces n0) b l in
  value <$> cells b' = value <$> cells b
  ∧ futures <$> cells b' = futures <$> cells b
  ∧ adopted b' = adopted b ∧ mod_q b' = mod_q b
  ∧ blocks b' = blocks b ∧ rows b' = rows b ∧ cols b' = cols b
  ∧ n b' = n b ∧ depth b' = depth b ∧ iter_wide b' = iter_wide b.
Proof.
  revert b. induction l as [|i l IH]; intros b; simpl; [done|].
  destruct (IH (link_space iter_spaces n0 b i)) as (-> & -> & -> & -> & -> & -> & -> & -> & -> & ->).
  unfold link_space, upd_cell. simpl. split_and!; try done.
  - by apply fmap_alter_frame.
  - by apply fmap_alter_frame.
Qed.

Lemma Sudoku_init_ok starting_layout n0 :
  n0 ^ 4 ≤ length starting_layout ->
  ∃ b, Sudoku_init iter_spaces starting_layout n0 = Ok b
       ∧ get_state b = take (n0 ^ 4) starting_layout
       ∧ adopted b = None.
Proof.
  intros Hlen. unfold Sudoku_init.
  edestruct (place_loop starting_layout n0 (n0 ^ 4)) as (b1 & -> & Hp); [done|].
  simpl. eexists. split; [reflexivity|].
  destruct (link_loop_frame n0 (seq 0 (n0 ^ 4)) b1) as (Hv & _ & Ha & _).
  destruct Hp as [Hcells Hadopted _ _ _ _ _ _ _].
  unfold get_state, spaces. cbn [cells adopted set_cols set_rows set_blocks].
  rewrite Ha, Hadopted. cbn [adopted].
  split; [|done]. rewrite Hv, Hcells. cbn [cells app].
  apply fmap_value_Space_init.
Qed.

(** C10.  Reading the state of a board just built from a layout of [n^4]
    entries gives that layout back, position by position. *)
Theorem get_state_of_init (starting_layout : list (option Z)) (n0 : nat) :
  length starting_layout = n0 ^ 4 ->
  ∃ b, Sudoku_init iter_spaces starting_layout n0 = Ok b
       ∧ get_state b = starting_layout.
Proof.
  intros Hlen.
  destruct (Sudoku_init_ok starting_layout n0) as (b & Hb & Hs & _); [lia|].
  exists b. split; [done|]. rewrite Hs, <- Hlen. apply firstn_all.
Qed.

(** C2, as the code has it.  The constructor checks nothing: it raises
    only when the layout has fewer than [n^4] entries (the [IndexError] of
    the read), and builds a board from the first [n^4] entries of any
    longer or equal layout, whatever their values. *)
Theorem init_checks_nothing (starting_layout : list (option Z)) (n0 : nat) :
  (length starting_layout < n0 ^ 4 ->
     Sudoku_init iter_spaces starting_layout n0 = Raise IndexError)
  ∧ (n0 ^ 4 ≤ length starting_layout ->
       ∃ b, Sudoku_init iter_spaces starting_layout n0 = Ok b
            ∧ get_state b = take (n0 ^ 4) starting_layout).
Proof.
  split.
  - intros Hlen. unfold Sudoku_init. by rewrite place_loop_short.
  - intros Hlen. destruct (Sudoku_init_ok starting_layout n0) as (b & ? & ? & _); eauto.
Qed.

End Constructor.

(** ** The propagation loop *)

Lemma list_remove_sublist x l : list_remove x l `sublist_of` l.
Proof.
  induction l as [|y l IH]; simpl; [done|].
  destruct (decide (x = y)); [by apply sublist_cons|by apply sublist_skip].
Qed.

Lemma list_remove_length x l :
  x ∈ l -> S (length (list_remove x l)) = length l.
Proof.
  induction l as [|y l IH]; simpl; [by intros ?%elem_of_nil|].
  intros Hin. destruct (decide (x = y)) as [|Hne]; [done|]. simpl. f_equal.
  apply IH. apply elem_of_cons in Hin as [?|?]; done.
Qed.

Lemma total_futures_alter f i (l : list Space) :
  i < length l ->
  total_futures (alter f i l) + length (futures (l !!! i))
  = total_futures l + length (futures (f (l !!! i))).
Proof.
  unfold total_futures. revert i.
  induction l as [|s l IH]; intros [|i] Hi; csimpl in *; try lia.
  specialize (IH i ltac:(lia)). lia.
Qed.

Lemma total_futures_alter_le f i (l : list Space) :
  (∀ s, length (futures (f s)) ≤ length (futures s)) ->
  total_futures (alter f i l) ≤ total_futures l.
Proof.
  intros Hf. unfold total_futures. revert i.
  induction l as [|s l IH]; intros [|i]; csimpl; try lia.
  - specialize (Hf s). lia.
  - specialize (IH i). lia.
Qed.

Lemma lookup_total_futures_nonempty (l : list Space) i :
  futures (l !!! i) ≠ [] -> i < length l.
Proof.
  intros Hne. destruct (decide (i < length l)) as [|Hge]; [done|].
  rewrite list_lookup_total_alt, lookup_ge_None_2 in Hne by lia. done.
Qed.

Lemma que_put_length i q :
  length (UniqueQueue.que (UniqueQueue.put i q)) ≤ S (length (UniqueQueue.que q)).
Proof.
  unfold UniqueQueue.put. destruct (decide _); simpl; [lia|].
  rewrite length_app. simpl. lia.
Qed.

Lemma remove_and_mark_variant i v b :
  v ∈ futures (cells b !!! i) ->
  S (total_futures (cells (remove_and_mark i v b))) = total_futures (cells b)
  ∧ variant (remove_and_mark i v b) ≤ variant b.
Proof.
  intros Hin.
  assert (i < length (cells b)) as Hi.
  { apply lookup_total_futures_nonempty. intros Hnil. rewrite Hnil in Hin.
    by apply elem_of_nil in Hin. }
  pose proof (total_futures_alter
    (fun s => set_futures (list_remove v (futures s)) s) i (cells b) Hi) as Ht.
  simpl in Ht. pose proof (list_remove_length v _ Hin) as Hl.
  pose proof (que_put_length i (mod_q b)) as Hq.
  unfold variant, remove_and_mark. simpl. lia.
Qed.

Lemma assign_first_futures s :
  futures (assign_first s) = [] ∨ (futures s = [] ∧ assign_first s = s).
Proof. unfold assign_first. destruct (futures s) eqn:Hf; [by right|by left]. Qed.

Lemma assign_first_neighbors s : neighbors (assign_first s) = neighbors s.
Proof. unfold assign_first. by destruct (futures s). Qed.

Lemma assign_single_futures_le s :
  length (futures (assign_single s)) ≤ length (futures s).
Proof.
  unfold assign_single. destruct (_ =? _); [|done].
  destruct (assign_first_futures s) as [->|[_ ->]]; simpl; lia.
Qed.

Lemma drop_neighbor_value_variant c j b :
  variant (drop_neighbor_value c j b) ≤ variant b.
Proof.
  unfold drop_neighbor_value. destruct (value _) as [v|]; [|done].
  case_bool_decide as Hin; [|done]. by apply remove_and_mark_variant.
Qed.

Lemma drop_own_value_variant c j b :
  variant (drop_own_value c j b) ≤ variant b.
Proof.
  unfold drop_own_value. destruct (value _) as [v|]; [|done].
  case_bool_decide as Hin; [|done]. by apply remove_and_mark_variant.
Qed.

Lemma settle_neighbor_variant j b :
  variant (settle_neighbor j b) ≤ variant b.
Proof.
  unfold settle_neighbor. destruct (_ =? _) eqn:Hlen; [|done].
  apply Nat.eqb_eq in Hlen.
  assert (j < length (cells b)) as Hj.
  { apply lookup_total_futures_nonempty. by destruct (futures _). }
  pose proof (total_futures_alter assign_first j (cells b) Hj) as Ht.
  pose proof (que_put_length j (mod_q b)) as Hq.
  destruct (assign_first_futures (cells b !!! j)) as [He|[He _]];
    rewrite He in *; simpl in *; [|lia].
  unfold variant. simpl. lia.
Qed.

Lemma visit_neighbor_variant c b j : variant (visit_neighbor c b j) ≤ variant b.
Proof.
  unfold visit_neighbor.
  etrans; [apply settle_neighbor_variant|].
  etrans; [apply drop_own_value_variant|]. apply drop_neighbor_value_variant.
Qed.

Lemma foldl_visit_variant c l b : variant (foldl (visit_neighbor c) b l) ≤ variant b.
Proof.
  revert b. induction l as [|j l IH]; intros b; simpl; [done|].
  etrans; [apply IH|]. apply visit_neighbor_variant.
Qed.

Lemma propagate_from_variant c b : variant (propagate_from c b) ≤ variant b.
Proof.
  unfold propagate_from. etrans; [apply foldl_visit_variant|].
  unfold variant. simpl.
  pose proof (total_futures_alter_le assign_single c (cells b)
                assign_single_futures_le). lia.
Qed.

Lemma candidates_shrink_refl l : candidates_shrink l l.
Proof. by split. Qed.

Lemma candidates_shrink_trans l1 l2 l3 :
  candidates_shrink l1 l2 -> candidates_shrink l2 l3 -> candidates_shrink l1 l3.
Proof.
  intros [Hl1 Hs1] [Hl2 Hs2]. split; [congruence|].
  intros i. etrans; [apply Hs2|apply Hs1].
Qed.

Lemma candidates_shrink_alter f i (l : list Space) :
  (∀ s, futures (f s) `sublist_of` futures s) ->
  candidates_shrink l (alter f i l).
Proof.
  intros Hf. split; [apply length_alter|]. intros k.
  rewrite list_lookup_total_alter. case_decide as Hk; [|done].
  destruct Hk as [-> _]. apply Hf.
Qed.

Lemma assign_first_sublist s : futures (assign_first s) `sublist_of` futures s.
Proof.
  destruct (assign_first_futures s) as [->|[_ ->]]; [apply sublist_nil_l|done].
Qed.

Lemma assign_single_sublist s : futures (assign_single s) `sublist_of` futures s.
Proof. unfold assign_single. destruct (_ =? _); [apply assign_first_sublist|done]. Qed.

Lemma value_step_refl s : value_step s s.
Proof. by left. Qed.

Lemma value_step_trans s1 s2 s3 :
  futures s2 `sublist_of` futures s1 -> futures s3 `sublist_of` futures s2 ->
  value_step s1 s2 -> value_step s2 s3 -> value_step s1 s3.
Proof.
  intros Hs12 Hs23 [H1|(Hne1 & He1 & Hv1)] [H2|(Hne2 & He2 & Hv2)].
  - left. congruence.
  - right. split_and!; [|done..]. intros Hnil. rewrite Hnil in Hs12.
    by apply sublist_nil_r in Hs12.
  - right. rewrite He1 in Hs23. apply sublist_nil_r in Hs23.
    split_and!; [done..|congruence].
  - done.
Qed.

Lemma assign_first_value_step s : value_step s (assign_first s).
Proof.
  unfold assign_first. destruct (futures s) eqn:Hf; [by left|].
  right. by rewrite Hf.
Qed.

Lemma assign_single_value_step s : value_step s (assign_single s).
Proof.
  unfold assign_single. destruct (_ =? _); [apply assign_first_value_step|by left].
Qed.

Lemma quiet_step_refl b : quiet_step b b.
Proof. split; first [done|apply candidates_shrink_refl|intros i; by left]. Qed.

Lemma quiet_step_trans b1 b2 b3 :
  quiet_step b1 b2 -> quiet_step b2 b3 -> quiet_step b1 b3.
Proof.
  intros H12 H23. destruct H12, H23. split; try congruence.
  - by eapply candidates_shrink_trans.
  - intros i. eapply value_step_trans; [| |done..].
    + apply quiet_shrink0.
    + apply quiet_shrink1.
  - by auto.
Qed.

Lemma quiet_step_upd_cell i f b :
  (∀ s, futures (f s) `sublist_of` futures s) ->
  (∀ s, value_step s (f s)) ->
  (∀ s, neighbors (f s) = neighbors s) ->
  quiet_step b (upd_cell i f b).
Proof.
  intros Hf Hv Hn. split; simpl; try done.
  - by apply candidates_shrink_alter.
  - intros k. rewrite list_lookup_total_alter.
    case_decide as Hk; [|by left]. destruct Hk as [-> _]. apply Hv.
  - by apply fmap_alter_frame.
Qed.

Lemma quiet_step_enqueue i b : quiet_step b (enqueue i b).
Proof.
  split; simpl; first [done|intros k; by left|apply uq_consistent_put].
Qed.

Lemma quiet_step_foldl {A} (f : Sudoku -> A -> Sudoku) (l : list A) b :
  (∀ b a, quiet_step b (f b a)) -> quiet_step b (foldl f b l).
Proof.
  intros Hf. revert b. induction l as [|a l IH]; intros b; simpl.
  - apply quiet_step_refl.
  - eapply quiet_step_trans; [apply Hf|apply IH].
Qed.

Lemma quiet_step_remove_and_mark i v b : quiet_step b (remove_and_mark i v b).
Proof.
  unfold remove_and_mark.
  eapply quiet_step_trans; [|apply quiet_step_enqueue].
  apply quiet_step_upd_cell; [|by left|done]. intros s. apply list_remove_sublist.
Qed.

Lemma quiet_step_drop_neighbor_value c j b :
  quiet_step b (drop_neighbor_value c j b).
Proof.
  unfold drop_neighbor_value.
  destruct (value (cells b !!! j)); [|apply quiet_step_refl].
  case_bool_decide; [apply quiet_step_remove_and_mark|apply quiet_step_refl].
Qed.

Lemma quiet_step_drop_own_value c j b : quiet_step b (drop_own_value c j b).
Proof.
  unfold drop_own_value.
  destruct (value (cells b !!! c)); [|apply quiet_step_refl].
  case_bool_decide; [apply quiet_step_remove_and_mark|apply quiet_step_refl].
Qed.

Lemma quiet_step_settle_neighbor j b : quiet_step b (settle_neighbor j b).
Proof.
  unfold settle_neighbor. destruct (_ =? _); [|apply quiet_step_refl].
  eapply quiet_step_trans; [|apply quiet_step_enqueue].
  apply quiet_step_upd_cell;
    [apply assign_first_sublist|apply assign_first_value_step|].
  intros s. unfold assign_first. by destruct (futures s).
Qed.

Lemma quiet_step_visit_neighbor c b j : quiet_step b (visit_neighbor c b j).
Proof.
  unfold visit_neighbor.
  eapply quiet_step_trans; [apply quiet_step_drop_neighbor_value|].
  eapply quiet_step_trans; [apply quiet_step_drop_own_value|].
  apply quiet_step_settle_neighbor.
Qed.

Lemma quiet_step_propagate_from c b : quiet_step b (propagate_from c b).
Proof.
  unfold propagate_from.
  eapply quiet_step_trans; [|apply quiet_step_foldl, quiet_step_visit_neighbor].
  apply quiet_step_upd_cell;
    [apply assign_single_sublist|apply assign_single_value_step|].
  intros s. unfold assign_single, assign_first.
  destruct (_ =? _); [|done]. by destruct (futures s).
Qed.

Lemma constraint_solve_loop_spec fuel b :
  variant b ≤ fuel ->
  match constraint_solve_loop fuel b with
  | Ok b' => UniqueQueue.que (mod_q b') = [] ∧ quiet_step b b'
  | Raise e => e = KeyError ∧ ¬ UniqueQueue.consistent (mod_q b)
  | OutOfFuel => False
  end.
Proof.
  revert b. induction fuel as [|fuel IH]; intros b Hv.
  - unfold variant in Hv. simpl. unfold UniqueQueue.empty.
    destruct (UniqueQueue.que (mod_q b)) eqn:Hq; simpl in *; [|lia].
    split; [done|apply quiet_step_refl].
  - simpl. unfold UniqueQueue.empty, UniqueQueue.get.
    destruct (UniqueQueue.que (mod_q b)) as [|c rest] eqn:Hq; simpl.
    { split; [done|apply quiet_step_refl]. }
    destruct (decide (c ∈ UniqueQueue.set (mod_q b))) as [Hin|Hnin]; simpl.
    2:{ split; [done|]. intros [_ Hmem]. apply Hnin, Hmem. rewrite Hq. by left. }
    set (q' := UniqueQueue.mk rest (UniqueQueue.set (mod_q b) ∖ {[c]})).
    assert (UniqueQueue.get (mod_q b) = Ok (Some c, q')) as Hget.
    { unfold UniqueQueue.get. rewrite Hq. by destruct (decide _). }
    pose proof (propagate_from_variant c (set_mod_q q' b)) as Hle.
    pose proof (quiet_step_propagate_from c (set_mod_q q' b)) as Hquiet.
    assert (quiet_step b (set_mod_q q' b)) as Hq0.
    { split; simpl; first [done|intros k; by left|idtac].
      intros Hc. by eapply uq_consistent_get. }
    specialize (IH (propagate_from c (set_mod_q q' b))).
    destruct (constraint_solve_loop fuel _) as [b'|e|].
    + destruct IH as [He Hs].
      { unfold variant in *. rewrite Hq in Hv. simpl in *. lia. }
      split; [done|]. eauto using quiet_step_trans.
    + destruct IH as [He Hs].
      { unfold variant in *. rewrite Hq in Hv. simpl in *. lia. }
      split; [done|]. intros Hc. apply Hs.
      by apply (quiet_queue _ _ (quiet_step_trans _ _ _ Hq0 Hquiet)).
    + apply IH. unfold variant in *. rewrite Hq in Hv. simpl in *. lia.
Qed.

Lemma constraint_solve_loop_more_fuel fuel fuel' b :
  constraint_solve_loop fuel b ≠ OutOfFuel -> fuel ≤ fuel' ->
  constraint_solve_loop fuel' b = constraint_solve_loop fuel b.
Proof.
  revert fuel' b. induction fuel as [|fuel IH]; intros fuel' b Hne Hle.
  - destruct (UniqueQueue.empty (mod_q b)) eqn:He.
    + destruct fuel'; simpl; by rewrite He.
    + simpl in Hne. by rewrite He in Hne.
  - destruct fuel' as [|fuel']; [lia|]. simpl in *.
    destruct (UniqueQueue.empty _); [done|].
    destruct (UniqueQueue.get _) as [[[c|] q]| |]; simpl in *; try done.
    apply IH; [done|lia].
Qed.

(** C7.  The propagation loop terminates on every board.  Every round
    takes one pending entry and puts a Space back only after removing a
    candidate from it or emptying its list, so the number of candidates
    plus the number of pending entries ([variant]) goes down with every
    round.  The loop never needs more rounds than that number; with that
    many it returns, whatever the board.  On a board whose worklist is
    consistent (every board the constructor builds, and every board
    reached from one) it returns normally, with the worklist drained to
    empty and with candidate lists that only lost entries. *)
Theorem constraint_solve_terminates (b : Sudoku) :
  (∀ c q, UniqueQueue.get (mod_q b) = Ok (Some c, q) ->
          variant (propagate_from c (set_mod_q q b)) < variant b)
  ∧ constraint_solve b ≠ OutOfFuel
  ∧ (∀ fuel, variant b ≤ fuel -> constraint_solve_loop fuel b = constraint_solve b)
  ∧ (UniqueQueue.consistent (mod_q b) ->
       ∃ b', constraint_solve b = Ok b'
             ∧ UniqueQueue.que (mod_q b') = []
             ∧ candidates_shrink (cells b) (cells b')).
Proof.
  pose proof (constraint_solve_loop_spec (variant b) b (le_n _)) as Hspec.
  unfold constraint_solve. split_and!.
  - intros c q Hget. pose proof (propagate_from_variant c (set_mod_q q b)) as Hle.
    enough (variant (set_mod_q q b) < variant b) by lia.
    unfold UniqueQueue.get in Hget. unfold variant. simpl.
    destruct (UniqueQueue.que (mod_q b)) as [|item rest]; [done|].
    destruct (decide _); [|done]. injection Hget as _ <-. simpl. lia.
  - intros Hf. by rewrite Hf in Hspec.
  - intros fuel Hle. apply constraint_solve_loop_more_fuel; [|done].
    intros Hf. by rewrite Hf in Hspec.
  - intros Hc. destruct (constraint_solve_loop _ b) as [b'|e|]; [|by destruct Hspec..].
    destruct Hspec as [Hq Hs]. exists b'. split_and!; [done..|]. apply Hs.
Qed.

(** ** The backtracking pass *)

Lemma range_down_S m : range_down (S m) = S m :: range_down m.
Proof. unfold range_down. by rewrite seq_S, rev_app_distr. Qed.

Lemma list_remove_delete (l : list Z) j v :
  NoDup l -> l !! j = Some v -> list_remove v l = delete j l.
Proof.
  revert j. induction l as [|y l IH]; intros j Hnd Hj; [done|].
  apply NoDup_cons in Hnd as [Hy Hnd]. destruct j as [|j]; simpl in *.
  - injection Hj as ->. by destruct (decide (v = v)).
  - destruct (decide (v = y)) as [->|Hne].
    + destruct Hy. by eapply list_elem_of_lookup_2.
    + f_equal. by apply IH.
Qed.

Lemma list_remove_NoDup x l : NoDup l -> NoDup (list_remove x l).
Proof. intros Hnd. by eapply sublist_NoDup, list_remove_sublist. Qed.

Lemma list_remove_head (l : list Z) j v :
  NoDup l -> l !! j = Some v -> 1 ≤ j -> head (list_remove v l) = head l.
Proof.
  intros Hnd Hj Hge. rewrite (list_remove_delete l j v Hnd Hj).
  destruct l as [|y l], j as [|j]; try done; lia.
Qed.

Lemma spaces_set_spaces l b : spaces (set_spaces l b) = l.
Proof.
  unfold set_spaces, spaces. destruct (adopted b) eqn:Ha; simpl; by rewrite ?Ha.
Qed.

Section Backtracking.

Variable trial :
  nat -> Shared -> list (option Z) -> res (Shared * option (list Space)).

(** Two continuations that agree on the boards the body can hand them give
    the same result. *)
Lemma try_candidate_ext v k i st sp next1 next2 :
  (∀ st', next1 st' sp = next2 st' sp) ->
  (∀ st', next1 st' (alter (fun s => set_futures (list_remove v (futures s)) s) k sp)
          = next2 st' (alter (fun s => set_futures (list_remove v (futures s)) s) k sp)) ->
  try_candidate trial v k i st sp next1 = try_candidate trial v k i st sp next2.
Proof.
  intros H1 H2. unfold try_candidate. case_bool_decide; [apply H1|].
  destruct (trial _ _ _) as [[st3 [w|]]| |]; simpl; try done.
  destruct (_ =? _); [done|apply H2].
Qed.

Lemma sweep_range_down_values m k i st sp :
  NoDup (futures (sp !!! k)) ->
  m < length (futures (sp !!! k)) ->
  sweep trial (range_down m) k i st sp
  = sweep_values trial (rev (take m (tail (futures (sp !!! k))))) k i st sp.
Proof.
  revert st sp. induction m as [|m IH]; intros st sp Hnd Hm.
  - by rewrite take_0.
  - rewrite range_down_S. simpl.
    destruct (lookup_lt_is_Some_2 (futures (sp !!! k)) (S m) Hm) as [v Hv].
    rewrite Hv.
    assert (tail (futures (sp !!! k)) !! m = Some v) as Hv'.
    { destruct (futures (sp !!! k)); [done|]. exact Hv. }
    rewrite (take_S_r _ _ _ Hv'), rev_app_distr. simpl.
    assert (k < length sp) as Hk.
    { apply lookup_total_futures_nonempty. intros Hnil. rewrite Hnil in Hm.
      simpl in Hm. lia. }
    apply try_candidate_ext.
    + intros st'. apply IH; [done|lia].
    + intros st'.
      set (sp1 := alter _ k sp).
      assert (futures (sp1 !!! k) = delete (S m) (futures (sp !!! k))) as Hf.
      { unfold sp1. rewrite list_lookup_total_alter_eq by done. simpl.
        by apply list_remove_delete. }
      rewrite IH.
      * rewrite Hf.
        assert (take m (tail (delete (S m) (futures (sp !!! k))))
                = take m (tail (futures (sp !!! k)))) as ->; [|done].
        destruct (futures (sp !!! k)) as [|y l]; [done|]. simpl in *.
        rewrite delete_take_drop, take_app_le by (rewrite length_take; lia).
        by rewrite take_take, Nat.min_l.
      * rewrite Hf. by eapply sublist_NoDup, sublist_delete.
      * rewrite Hf, length_delete by (by eexists). lia.
Qed.

(** C4, as the code has it.  For a Space whose candidate list [fs] has no
    repetition, the loop over [j] of [recursive_backtrack] goes through the
    candidates [fs[len - 1]], ..., [fs[1]] in that order, from the last to
    the second (the highest to the second lowest of the increasing lists
    the constructor builds): a candidate whose trial layout was visited is
    skipped, the loop stops at the first solved trial or when one candidate
    is left.  The first candidate, [fs[0]], is never the subject of a
    trial. *)
Theorem sweep_skips_first (k i : nat) (st : Shared) (sp : list Space) :
  NoDup (futures (sp !!! k)) ->
  sweep trial (range_down (length (futures (sp !!! k)) - 1)) k i st sp
  = sweep_values trial (rev (tail (futures (sp !!! k)))) k i st sp.
Proof.
  intros Hnd. destruct (futures (sp !!! k)) as [|y l] eqn:Hf; [done|].
  rewrite <- Hf, sweep_range_down_values; rewrite ?Hf; simpl; [|done|lia].
  by rewrite Nat.sub_0_r, firstn_all.
Qed.

Lemma kept_refl s : kept s s.
Proof. by split_and!. Qed.

Lemma kept_trans s1 s2 s3 : kept s1 s2 -> kept s2 s3 -> kept s1 s3.
Proof.
  intros (Hv1 & Hs1 & Hh1) (Hv2 & Hs2 & Hh2). split_and!.
  - congruence.
  - by etrans.
  - intros Hnd. rewrite Hh2, Hh1; [done..|]. by eapply sublist_NoDup.
Qed.

Lemma kept_settled s1 s2 s3 : kept s1 s2 -> settled s2 s3 -> settled s1 s3.
Proof.
  intros (Hv1 & Hs1 & Hh1) (Hf & v & Hv & Hin & Hh2). split; [done|].
  exists v. split_and!; [done| |].
  - eapply sublist_submseteq, elem_of_submseteq in Hs1; done.
  - intros Hnd. rewrite <- Hh1, Hh2; [done| |done]. by eapply sublist_NoDup.
Qed.

Lemma sweep_frame js k i st sp st' sp' won :
  Forall (fun j => 1 ≤ j) js ->
  sweep trial js k i st sp = Ok (st', sp', won) ->
  length sp' = length sp
  ∧ (∀ k', k' ≠ k -> sp' !! k' = sp !! k')
  ∧ neighbors (sp' !!! k) = neighbors (sp !!! k)
  ∧ (kept (sp !!! k) (sp' !!! k) ∨ settled (sp !!! k) (sp' !!! k)).
Proof.
  intros Hjs. revert st sp. induction Hjs as [|j js Hj _ IH]; intros st sp; simpl.
  { intros [= <- <- <-]. split_and!; [done..|]. left. apply kept_refl. }
  destruct (futures (sp !!! k) !! j) as [v|] eqn:Hv; [|done].
  assert (k < length sp) as Hk.
  { apply lookup_total_futures_nonempty. intros Hnil. by rewrite Hnil in Hv. }
  unfold try_candidate. case_bool_decide; [apply IH|].
  destruct (trial _ _ _) as [[st3 [w|]]| |]; simpl; try done.
  { intros [= <- <- <-]. split_and!; [done..|]. left. apply kept_refl. }
  set (sp1 := alter (fun s => set_futures (list_remove v (futures s)) s) k sp).
  assert (sp1 !!! k = set_futures (list_remove v (futures (sp !!! k))) (sp !!! k)) as Hsp1.
  { unfold sp1. by rewrite list_lookup_total_alter_eq. }
  assert (kept (sp !!! k) (sp1 !!! k)) as Hkept.
  { rewrite Hsp1. split_and!; simpl; [done|apply list_remove_sublist|].
    intros Hnd. by eapply list_remove_head. }
  destruct (length (futures (sp1 !!! k)) =? 1) eqn:Hlen.
  - intros [= <- <- <-]. apply Nat.eqb_eq in Hlen.
    rewrite list_lookup_total_alter_eq by (unfold sp1; by rewrite length_alter).
    split_and!.
    + unfold sp1. by rewrite !length_alter.
    + intros k' Hne. unfold sp1. by rewrite !list_lookup_alter_ne.
    + by rewrite assign_first_neighbors, Hsp1.
    + right. eapply kept_settled; [exact Hkept|].
      unfold settled, assign_first.
      destruct (futures (sp1 !!! k)) as [|c [|??]] eqn:Hf; try done. simpl.
      split; [done|]. exists c. split_and!; [done|by left|done].
  - intros Hsweep. apply IH in Hsweep as (Hl & Hother & Hn & Hrel).
    split_and!.
    + rewrite Hl. unfold sp1. by rewrite length_alter.
    + intros k' Hne. rewrite Hother by done. unfold sp1.
      by rewrite list_lookup_alter_ne.
    + rewrite Hn, Hsp1. done.
    + destruct Hrel as [Hrel|Hrel]; [left|right].
      * by eapply kept_trans.
      * by eapply kept_settled.
Qed.

Lemma Forall_range_down m : Forall (fun j => 1 ≤ j) (range_down m).
Proof.
  unfold range_down. apply Forall_rev, Forall_forall.
  intros j Hj%elem_of_seq. lia.
Qed.

Lemma lookup_total_ext (l1 l2 : list Space) k :
  l1 !! k = l2 !! k -> l1 !!! k = l2 !!! k.
Proof. intros Heq. by rewrite !list_lookup_total_alt, Heq. Qed.

Lemma backtrack_cells_cons k ks i st sp :
  backtrack_cells trial (k :: ks) i st sp
  = if (2 <=? length (futures (sp !!! k))) && (length (futures (sp !!! k)) <=? i)
    then '(st1, sp1, won) ← sweep trial (range_down (length (futures (sp !!! k)) - 1)) k i st sp;
         match won with
         | Some w => Ok (st1, sp1, Some w)
         | None => backtrack_cells trial ks i st1 sp1
         end
    else backtrack_cells trial ks i st sp.
Proof. done. Qed.

Lemma backtrack_cells_frame ks i st sp st' sp' won :
  NoDup ks ->
  backtrack_cells trial ks i st sp = Ok (st', sp', won) ->
  length sp' = length sp
  ∧ ∀ k, (k ∉ ks -> sp' !! k = sp !! k)
         ∧ eliminated i (sp !!! k) (sp' !!! k).
Proof.
  intros Hnd. revert st sp.
  induction Hnd as [|k0 ks Hk0 Hnd IH]; intros st sp.
  { intros [= <- <- <-]. split; [done|]. intros k. split; [done|].
    split; [done|by left]. }
  rewrite backtrack_cells_cons.
  destruct ((2 <=? length (futures (sp !!! k0)))
            && (length (futures (sp !!! k0)) <=? i)) eqn:Hsel.
  - apply andb_true_iff in Hsel as [H2%Nat.leb_le Hi%Nat.leb_le].
    destruct (sweep _ _ _ _ _ _) as [[[st1 sp1] won1]| |] eqn:Hsw; simpl; try done.
    apply sweep_frame in Hsw as (Hl1 & Hother1 & Hn1 & Hrel1);
      [|apply Forall_range_down].
    assert (∀ k, (k ≠ k0 -> sp1 !! k = sp !! k)
                 ∧ eliminated i (sp !!! k) (sp1 !!! k)) as Hstep.
    { intros k. split; [by auto|]. destruct (decide (k = k0)) as [->|Hne].
      - split; [done|]. right. by split.
      - rewrite (lookup_total_ext sp1 sp k) by auto. split; [done|by left]. }
    destruct won1 as [w|]; simpl.
    + intros [= <- <- <-]. split; [done|]. intros k.
      destruct (Hstep k) as [Hs1 Hs2]. split; [|done].
      intros [Hne _]%not_elem_of_cons. by apply Hs1.
    + intros Hrest. apply IH in Hrest as (Hl & Hall). split; [congruence|].
      intros k. destruct (Hall k) as [Hout Hel], (Hstep k) as [Hs1 Hs2]. split.
      * intros [Hne Hk]%not_elem_of_cons. rewrite Hout by done. by apply Hs1.
      * destruct (decide (k = k0)) as [->|Hne].
        -- by rewrite (lookup_total_ext sp' sp1 k0) by auto.
        -- by rewrite (lookup_total_ext sp sp1 k) by (symmetry; auto).
  - intros Hrest. apply IH in Hrest as (Hl & Hall). split; [done|].
    intros k. destruct (Hall k) as [Hout Hel]. split; [|done].
    intros [Hne Hk]%not_elem_of_cons. by apply Hout.
Qed.

End Backtracking.

(** ** The groups of a board *)

Lemma row_index_at n R C : C < n ^ 2 -> row_index n (n ^ 2 * R + C) = R.
Proof.
  intros HC. unfold row_index. generalize dependent (n ^ 2). intros N HC.
  rewrite (Nat.mul_comm N R), Nat.div_add_l by lia.
  rewrite Nat.div_small by done. lia.
Qed.

Lemma col_index_at n R C : C < n ^ 2 -> col_index n (n ^ 2 * R + C) = C.
Proof.
  intros HC. unfold col_index. generalize dependent (n ^ 2). intros N HC.
  rewrite Nat.add_comm, (Nat.mul_comm N R), Nat.Div0.mod_add.
  by apply Nat.mod_small.
Qed.

Lemma block_index_at n R C :
  C < n ^ 2 -> block_index n (n ^ 2 * R + C) = C / n + n * (R / n).
Proof.
  intros HC. unfold block_index.
  assert (n ≠ 0) as Hn by (intros ->; rewrite Nat.pow_2_r in HC; lia).
  f_equal.
  - replace (n ^ 2 * R + C) with (n * R * n + C) by (rewrite Nat.pow_2_r; lia).
    rewrite Nat.div_add_l by done.
    rewrite Nat.add_comm, (Nat.mul_comm n R), Nat.Div0.mod_add.
    apply Nat.mod_small, Nat.Div0.div_lt_upper_bound.
    by rewrite Nat.pow_2_r in HC.
  - f_equal. rewrite <- Nat.Div0.div_div. f_equal. by apply row_index_at.
Qed.

Lemma pow_4_sq n : n ^ 4 = n ^ 2 * n ^ 2.
Proof. replace 4 with (2 + 2) by done. apply Nat.pow_add_r. Qed.

Lemma row_cells_group n r : r < n ^ 2 -> is_group n (row_cells n r).
Proof.
  intros Hr. unfold row_cells. split.
  - by rewrite length_fmap, length_seq.
  - apply NoDup_fmap_2; [intros c1 c2; lia|apply NoDup_seq].
  - intros i (c & -> & Hc%elem_of_seq)%list_elem_of_fmap. rewrite pow_4_sq. nia.
  - intros i j (c1 & -> & Hc1%elem_of_seq)%list_elem_of_fmap
      (c2 & -> & Hc2%elem_of_seq)%list_elem_of_fmap.
    left. rewrite !row_index_at by lia. done.
Qed.

Lemma col_cells_group n c : c < n ^ 2 -> is_group n (col_cells n c).
Proof.
  intros Hc. unfold col_cells. split.
  - by rewrite length_fmap, length_seq.
  - apply NoDup_fmap_2_strong; [|apply NoDup_seq].
    intros r1 r2 _ _ Heq. nia.
  - intros i (r & -> & Hr%elem_of_seq)%list_elem_of_fmap. rewrite pow_4_sq. nia.
  - intros i j (r1 & -> & Hr1%elem_of_seq)%list_elem_of_fmap
      (r2 & -> & Hr2%elem_of_seq)%list_elem_of_fmap.
    right; left. rewrite !col_index_at by lia. done.
Qed.

Lemma block_cells_elem n g i :
  i ∈ block_cells n g ↔
  ∃ rr cc, rr < n ∧ cc < n
           ∧ i = n ^ 2 * (n * (g / n) + rr) + (n * (g mod n) + cc).
Proof.
  unfold block_cells. rewrite list_elem_of_bind. split.
  - intros (rr & (cc & -> & Hcc%elem_of_seq)%list_elem_of_fmap & Hrr%elem_of_seq).
    exists rr, cc. split_and!; [lia..|done].
  - intros (rr & cc & Hrr & Hcc & ->). exists rr. split.
    + apply list_elem_of_fmap. exists cc. split; [done|]. apply elem_of_seq. lia.
    + apply elem_of_seq. lia.
Qed.

Lemma block_cells_group n g : g < n ^ 2 -> is_group n (block_cells n g).
Proof.
  intros Hg.
  assert (n ≠ 0) as Hn by (intros ->; rewrite Nat.pow_2_r in Hg; lia).
  assert (g / n < n) as Hbr.
  { apply Nat.Div0.div_lt_upper_bound. by rewrite Nat.pow_2_r in Hg. }
  assert (g mod n < n) as Hbc by by apply Nat.mod_upper_bound.
  assert (∀ rr, rr < n -> n * (g / n) + rr < n ^ 2) as HR
    by (intros; rewrite Nat.pow_2_r; nia).
  assert (∀ cc, cc < n -> n * (g mod n) + cc < n ^ 2) as HC
    by (intros; rewrite Nat.pow_2_r; nia).
  split.
  - unfold block_cells. clear. generalize (n * (g / n)), (n * (g mod n)).
    intros a c. rewrite Nat.pow_2_r.
    assert (∀ l : list nat,
      length (l ≫= fun rr => (fun cc => n * n * (a + rr) + (c + cc)) <$> seq 0 n)
      = length l * n) as Hlen.
    { induction l as [|x l IH]; [done|].
      rewrite bind_cons, length_app, length_fmap, length_seq, IH. simpl. lia. }
    by rewrite Hlen, length_seq.
  - unfold block_cells. apply NoDup_bind; [| |apply NoDup_seq].
    + intros r1 r2 i Hr1%elem_of_seq Hr2%elem_of_seq
        (c1 & -> & Hc1%elem_of_seq)%list_elem_of_fmap
        (c2 & Heq & Hc2%elem_of_seq)%list_elem_of_fmap.
      apply (f_equal (row_index n)) in Heq.
      rewrite !row_index_at in Heq by (apply HC; lia). lia.
    + intros rr Hrr%elem_of_seq. apply NoDup_fmap_2; [intros c1 c2; lia|apply NoDup_seq].
  - intros i (rr & cc & Hrr & Hcc & ->)%block_cells_elem.
    specialize (HR rr Hrr). specialize (HC cc Hcc). rewrite pow_4_sq. nia.
  - intros i j (r1 & c1 & Hr1 & Hc1 & ->)%block_cells_elem
      (r2 & c2 & Hr2 & Hc2 & ->)%block_cells_elem.
    right; right. rewrite !block_index_at by (by apply HC).
    rewrite !(Nat.mul_comm n (g mod n)), !(Nat.mul_comm n (g / n)),
      !Nat.div_add_l, !(Nat.div_small c1), !(Nat.div_small c2),
      !(Nat.div_small r1), !(Nat.div_small r2) by done.
    done.
Qed.

Lemma board_groups_group n g : g ∈ board_groups n -> is_group n g.
Proof.
  unfold board_groups. intros (x & Hg & Hx%elem_of_seq)%list_elem_of_bind.
  rewrite !elem_of_cons in Hg. destruct Hg as [->|[->|[->|Hg]]].
  - apply block_cells_group. lia.
  - apply row_cells_group. lia.
  - apply col_cells_group. lia.
  - by apply elem_of_nil in Hg.
Qed.

Lemma one_to_N_elem n (v : Z) :
  (1 ≤ v ≤ Z.of_nat (n ^ 2))%Z -> Some v ∈ one_to_N n.
Proof.
  intros Hv. unfold one_to_N. apply list_elem_of_fmap.
  exists (Z.to_nat v). split; [f_equal; lia|]. apply elem_of_seq. lia.
Qed.

Lemma is_solved_true_elim b :
  is_solved b = true ->
  (∀ s, s ∈ spaces b -> value s ≠ None) ∧ has_conflict b = false.
Proof.
  unfold is_solved. destruct (negb _); [done|].
  destruct (existsb _ (spaces b)) eqn:Hex; [done|].
  destruct (has_conflict b); [done|]. intros _. split; [|done].
  intros s Hs Hv. apply not_true_iff_false in Hex. apply Hex, existsb_elem_of.
  exists s. split; [done|]. by apply bool_decide_eq_true.
Qed.

(** C1, as the code has it.  On a board that [is_solved] and whose Spaces
    are linked as the constructor links them (every board the constructor
    builds and every board [solve] returns is: [sound_well_linked],
    [solve_returns]), every row, column and block shows [n^2] assigned
    values, no two of them equal.  [is_solved] does not look at the range
    of the values: the group is a permutation of [1..n^2] when, besides,
    the values of the board lie in that range. *)
Theorem solved_groups_distinct (b : Sudoku) (g : list nat) :
  well_linked b -> is_solved b = true -> g ∈ board_groups (n b) ->
  length (group_values b g) = n b ^ 2
  ∧ NoDup (group_values b g)
  ∧ (None ∉ group_values b g)
  ∧ (in_range b -> group_values b g ≡ₚ one_to_N (n b)).
Proof.
  intros [Hlen Hlink] Hsolved Hg.
  apply board_groups_group in Hg as [Hgl Hgnd Hgb Hgs].
  apply is_solved_true_elim in Hsolved as (Hall & Hnc).
  assert (∀ i, i ∈ g -> ∃ s v, spaces b !! i = Some s ∧ value s = Some v
                                ∧ spaces b !!! i = s) as Hval.
  { intros i Hi. destruct (lookup_lt_is_Some_2 (spaces b) i) as [s Hs].
    { rewrite Hlen. by apply Hgb. }
    pose proof (Hall s (list_elem_of_lookup_2 _ _ _ Hs)) as Hne.
    destruct (value s) as [v|] eqn:Hv; [|done].
    exists s, v. split_and!; [done..|]. by apply list_lookup_total_correct. }
  assert (∀ i j, i ∈ g -> j ∈ g -> i ≠ j ->
            value (spaces b !!! i) ≠ value (spaces b !!! j)) as Hdiff.
  { intros i j Hi Hj Hne Heq.
    destruct (Hval i Hi) as (s & v & Hs & Hv & Hsi).
    destruct (Hval j Hj) as (t & w & Ht & Hw & Htj).
    rewrite Hsi, Htj, Hv, Hw in Heq. injection Heq as <-.
    apply not_true_iff_false in Hnc. apply Hnc, has_conflict_true. right.
    exists s, v, j, t. split_and!; [by eapply list_elem_of_lookup_2|done| |done..].
    rewrite Forall_forall in Hlink.
    specialize (Hlink i). rewrite elem_of_seq in Hlink.
    specialize (Hlink ltac:(split; [lia|by apply Hgb])).
    rewrite Forall_forall in Hlink. specialize (Hlink j).
    rewrite elem_of_seq in Hlink.
    specialize (Hlink ltac:(split; [lia|by apply Hgb])).
    rewrite Hsi in Hlink. apply Hlink. split; [done|]. by apply Hgs. }
  assert (NoDup (group_values b g)) as Hnd.
  { unfold group_values. apply NoDup_fmap_2_strong; [|done].
    intros i j Hi Hj Heq. destruct (decide (i = j)) as [|Hne]; [done|].
    by destruct (Hdiff i j Hi Hj Hne). }
  split_and!.
  - unfold group_values. by rewrite length_fmap.
  - done.
  - unfold group_values. intros (i & Hi & Hin)%list_elem_of_fmap.
    destruct (Hval i Hin) as (s & v & _ & Hv & Hsi). rewrite Hsi, Hv in Hi. done.
  - intros Hrange. apply submseteq_length_Permutation.
    + apply NoDup_submseteq; [done|]. unfold group_values.
      intros x (i & -> & Hin)%list_elem_of_fmap.
      destruct (Hval i Hin) as (s & v & Hs & Hv & Hsi). rewrite Hsi, Hv.
      apply one_to_N_elem. unfold in_range in Hrange.
      rewrite Forall_forall in Hrange.
      specialize (Hrange s (list_elem_of_lookup_2 _ _ _ Hs)).
      by rewrite Hv in Hrange.
    + unfold group_values, one_to_N. rewrite !length_fmap, length_seq. lia.
Qed.

(** ** The naked-set pass *)

Lemma elem_of_combinations (l : list nat) k S :
  S ∈ combinations l k ↔ S `sublist_of` l ∧ length S = k.
Proof.
  revert k S. induction l as [|x l IH]; intros [|k] S; simpl.
  - rewrite list_elem_of_singleton, sublist_nil_r. split; [by intros ->|by intros [-> _]].
  - rewrite elem_of_nil, sublist_nil_r. split; [done|]. by intros [-> ?].
  - rewrite list_elem_of_singleton. split.
    + intros ->. split; [apply sublist_nil_l|done].
    + intros [_ Hl]. by destruct S.
  - rewrite elem_of_app, list_elem_of_fmap, sublist_cons_r. split.
    + intros [(S' & -> & [Hs Hl]%IH)|[Hs Hl]%IH].
      * split; [right; eauto|]. simpl. by rewrite Hl.
      * split; [by left|done].
    + intros [[Hs|(S' & -> & Hs)] Hl].
      * right. by apply IH.
      * left. exists S'. split; [done|]. apply IH. split; [done|].
        simpl in Hl. lia.
Qed.

Lemma elem_of_powerset (l S : list nat) :
  S ∈ powerset l ↔ S `sublist_of` l ∧ 2 ≤ length S.
Proof.
  unfold powerset. rewrite elem_of_remove_dups, list_elem_of_bind. split.
  - intros (k & [Hs Hl]%elem_of_combinations & Hk%elem_of_seq). split; [done|lia].
  - intros [Hs Hl]. exists (length S). split; [by apply elem_of_combinations|].
    apply sublist_length in Hs. apply elem_of_seq. lia.
Qed.

Lemma sublist_same_length {A} (l k : list A) :
  l `sublist_of` k -> length k ≤ length l -> l = k.
Proof.
  induction 1 as [|x l k _ IH|x l k Hs IH]; simpl; intros Hl; [done| |].
  - f_equal. apply IH. lia.
  - apply sublist_length in Hs. lia.
Qed.

Lemma sublist_neq_chain (l1 l2 l3 : list Z) :
  l2 `sublist_of` l1 -> l3 `sublist_of` l2 ->
  (l3 ≠ l1 ↔ l2 ≠ l1 ∨ l3 ≠ l2).
Proof.
  intros H21 H32. split.
  - intros Hne. destruct (decide (l2 = l1)) as [->|]; [by right|by left].
  - intros [Hne|Hne] Heq; subst l3.
    + apply Hne. by apply (anti_symm sublist).
    + apply Hne. symmetry. by apply (anti_symm sublist).
Qed.

Lemma marked_step_refl b : marked_step b b.
Proof.
  split; [apply quiet_step_refl|done|]. intros _ x.
  split; [by left|]. by intros [?|?].
Qed.

Lemma marked_step_trans b1 b2 b3 :
  marked_step b1 b2 -> marked_step b2 b3 -> marked_step b1 b3.
Proof.
  intros [Hq1 Hv1 Hm1] [Hq2 Hv2 Hm2]. split.
  - by eapply quiet_step_trans.
  - congruence.
  - intros Hc x. rewrite (Hm2 (quiet_queue _ _ Hq1 Hc)), (Hm1 Hc).
    destruct Hq1 as [[_ Hs1] _ _ _ _ _ _ _ _ _ _], Hq2 as [[_ Hs2] _ _ _ _ _ _ _ _ _ _].
    rewrite (sublist_neq_chain _ _ _ (Hs1 x) (Hs2 x)). tauto.
Qed.

Lemma marked_step_foldl {A} (f : Sudoku -> A -> Sudoku) (l : list A) b :
  (∀ b a, marked_step b (f b a)) -> marked_step b (foldl f b l).
Proof.
  intros Hf. revert b. induction l as [|a l IH]; intros b; simpl.
  - apply marked_step_refl.
  - eapply marked_step_trans; [apply Hf|apply IH].
Qed.

Lemma uq_put_elem i q x :
  UniqueQueue.consistent q ->
  x ∈ UniqueQueue.que (UniqueQueue.put i q) ↔ x ∈ UniqueQueue.que q ∨ x = i.
Proof.
  intros [_ Hmem]. unfold UniqueQueue.put.
  destruct (decide (i ∈ UniqueQueue.set q)) as [Hin|Hnin]; simpl.
  - split; [by left|]. intros [Hx|Hx]; [done|]. subst x. by apply Hmem.
  - rewrite elem_of_app, list_elem_of_singleton. done.
Qed.

Lemma marked_step_remove_and_mark i v b :
  v ∈ futures (cells b !!! i) -> marked_step b (remove_and_mark i v b).
Proof.
  intros Hin.
  assert (i < length (cells b)) as Hi.
  { apply lookup_total_futures_nonempty. intros Hnil. rewrite Hnil in Hin.
    by apply elem_of_nil in Hin. }
  split.
  - apply quiet_step_remove_and_mark.
  - unfold remove_and_mark. simpl. by apply fmap_alter_frame.
  - intros Hc x. unfold remove_and_mark. simpl. rewrite uq_put_elem by done.
    rewrite list_lookup_total_alter.
    destruct (decide (i = x ∧ i < length (cells b))) as [[-> _]|Hne]; simpl.
    + split; [|intros _; by right]. intros _. right. intros Heq.
      pose proof (list_remove_length v _ Hin) as Hl. rewrite Heq in Hl. lia.
    + split; [|by intros [?|?]; [left|]].
      intros [Hx|Hx]; [by left|]. subst x. by destruct Hne.
Qed.

Lemma marked_step_strike i b v : marked_step b (strike i b v).
Proof.
  unfold strike. case_bool_decide; [|apply marked_step_refl].
  by apply marked_step_remove_and_mark.
Qed.

Lemma marked_step_naked_step unk_s b subset :
  marked_step b (naked_step unk_s b subset).
Proof.
  unfold naked_step. destruct (_ && _); [|apply marked_step_refl].
  apply marked_step_foldl. intros b' i. unfold strike_outside.
  case_bool_decide; [apply marked_step_refl|].
  apply marked_step_foldl. intros b'' v. apply marked_step_strike.
Qed.

Lemma filter_all_true {A} (P : A -> Prop) `{!∀ x, Decision (P x)} (l : list A) :
  (∀ x, x ∈ l -> P x) -> filter P l = l.
Proof.
  induction l as [|x l IH]; intros Hall; [done|].
  rewrite filter_cons_True by (apply Hall; by left).
  f_equal. apply IH. intros y Hy. apply Hall. by right.
Qed.

Lemma list_remove_filter v (l : list Z) :
  NoDup l -> list_remove v l = filter (fun x => x ≠ v) l.
Proof.
  induction l as [|y l IH]; intros Hnd; [done|].
  apply NoDup_cons in Hnd as [Hy Hnd]. simpl.
  destruct (decide (v = y)) as [->|Hne].
  - rewrite filter_cons_False by (by intros ?).
    symmetry. apply filter_all_true. intros x Hx ->. done.
  - rewrite filter_cons_True by done. f_equal. by apply IH.
Qed.

Lemma strike_futures i b v k :
  NoDup (futures (cells b !!! i)) ->
  futures (cells (strike i b v) !!! k)
  = if decide (k = i) then filter (fun x => x ≠ v) (futures (cells b !!! k))
    else futures (cells b !!! k).
Proof.
  intros Hnd. unfold strike. case_bool_decide as Hin.
  - assert (i < length (cells b)) as Hi.
    { apply lookup_total_futures_nonempty. intros Hnil. rewrite Hnil in Hin.
      by apply elem_of_nil in Hin. }
    unfold remove_and_mark. simpl. rewrite list_lookup_total_alter.
    destruct (decide (k = i)) as [->|Hne].
    + rewrite decide_True by done. simpl. by apply list_remove_filter.
    + rewrite decide_False by (intros [? _]; done). done.
  - destruct (decide (k = i)) as [->|]; [|done].
    symmetry. apply filter_all_true. intros x Hx ->. done.
Qed.

Lemma quiet_step_NoDup b b' :
  quiet_step b b' ->
  (∀ i, NoDup (futures (cells b !!! i))) ->
  ∀ i, NoDup (futures (cells b' !!! i)).
Proof.
  intros [[_ Hs] _ _ _ _ _ _ _ _ _] Hnd i. by eapply sublist_NoDup.
Qed.

Lemma foldl_strike_futures i vs b k :
  NoDup (futures (cells b !!! i)) ->
  futures (cells (foldl (strike i) b vs) !!! k)
  = if decide (k = i) then filter (fun x => x ∉ vs) (futures (cells b !!! k))
    else futures (cells b !!! k).
Proof.
  revert b. induction vs as [|v vs IH]; intros b Hnd; simpl.
  - destruct (decide (k = i)); [|done]. symmetry. apply filter_all_true.
    intros x _. apply not_elem_of_nil.
  - rewrite IH, strike_futures by (rewrite ?strike_futures by done;
      rewrite ?decide_True by done; by try apply NoDup_filter).
    destruct (decide (k = i)); [|done].
    rewrite list_filter_filter. apply list_filter_iff. intros x.
    rewrite not_elem_of_cons. tauto.
Qed.

Lemma strike_outside_futures subset (nums : gset Z) unk_s b k :
  (∀ i, NoDup (futures (cells b !!! i))) ->
  futures (cells (foldl (strike_outside subset nums) b unk_s) !!! k)
  = if decide (k ∈ unk_s ∧ k ∉ subset)
    then filter (fun x => x ∉ nums) (futures (cells b !!! k))
    else futures (cells b !!! k).
Proof.
  revert b. induction unk_s as [|i unk_s IH]; intros b Hnd.
  { destruct (decide _) as [[Hk _]|]; [by apply elem_of_nil in Hk|done]. }
  change (foldl (strike_outside subset nums) b (i :: unk_s))
    with (foldl (strike_outside subset nums) (strike_outside subset nums b i) unk_s).
  assert (marked_step b (strike_outside subset nums b i)) as Hstep.
  { unfold strike_outside. case_bool_decide; [apply marked_step_refl|].
    apply marked_step_foldl. intros b' v. apply marked_step_strike. }
  rewrite IH by (eapply quiet_step_NoDup; [apply Hstep|done]).
  unfold strike_outside. case_bool_decide as Hin.
  - apply decide_ext. rewrite elem_of_cons. split; [tauto|].
    intros [[->|?] ?]; done.
  - rewrite !foldl_strike_futures by done.
    assert (∀ l : list Z,
      filter (fun x => x ∉ elements nums) l = filter (fun x => x ∉ nums) l) as Hel.
    { intros l. apply list_filter_iff. intros x. by rewrite elem_of_elements. }
    destruct (decide (k = i)) as [->|Hne].
    + rewrite Hel, (decide_True (P := i ∈ i :: unk_s ∧ i ∉ subset))
        by (split; [by left|done]).
      destruct (decide (i ∈ unk_s ∧ i ∉ subset)); [|done].
      rewrite list_filter_filter. apply list_filter_iff. tauto.
    + apply decide_ext. rewrite elem_of_cons. split; [tauto|].
      intros [[->|?] ?]; done.
Qed.

Lemma naked_step_test unk_s b subset :
  (size (set_nums b subset) =? length subset) && (length subset <? length unk_s) = true
  ↔ is_naked unk_s b subset.
Proof. unfold is_naked. rewrite andb_true_iff, Nat.eqb_eq, Nat.ltb_lt. done. Qed.

Lemma naked_step_futures unk_s b subset k :
  (∀ i, NoDup (futures (cells b !!! i))) ->
  is_naked unk_s b subset ->
  futures (cells (naked_step unk_s b subset) !!! k)
  = if decide (k ∈ unk_s ∧ k ∉ subset)
    then filter (fun v => v ∉ set_nums b subset) (futures (cells b !!! k))
    else futures (cells b !!! k).
Proof.
  intros Hnd Hnaked%naked_step_test. unfold naked_step. rewrite Hnaked.
  by apply strike_outside_futures.
Qed.

Lemma naked_step_not_naked unk_s b subset :
  ¬ is_naked unk_s b subset -> naked_step unk_s b subset = b.
Proof.
  intros Hn. unfold naked_step.
  destruct (_ && _) eqn:Htest; [|done]. by apply naked_step_test in Htest.
Qed.

Lemma foldl_bind {A B C} (f : A -> B -> A) (g : C -> list B) (l : list C) a :
  foldl f a (l ≫= g) = foldl (fun a x => foldl f a (g x)) a l.
Proof.
  revert a. induction l as [|x l IH]; intros a; [done|].
  by rewrite bind_cons, foldl_app, IH.
Qed.

Lemma fmap_eq_lookup_total (l l' : list Space) i :
  value <$> l' = value <$> l -> value (l' !!! i) = value (l !!! i).
Proof.
  intros Heq. apply (f_equal (fun x => x !! i)) in Heq.
  rewrite !list_lookup_fmap in Heq. rewrite !list_lookup_total_alt.
  destruct (l' !! i), (l !! i); simpl in *; congruence.
Qed.

Lemma unknowns_same_values b b' g :
  value <$> cells b' = value <$> cells b -> unknowns b' g = unknowns b g.
Proof.
  intros Heq. unfold unknowns. apply list_filter_iff. intros i.
  by rewrite (fmap_eq_lookup_total _ _ i Heq).
Qed.

Lemma Forall_NoDup_futures (l : list Space) :
  Forall (fun s => NoDup (futures s)) l -> ∀ i, NoDup (futures (l !!! i)).
Proof.
  intros Hall i. rewrite list_lookup_total_alt.
  destruct (l !! i) as [s|] eqn:Hs; simpl; [|apply NoDup_nil_2].
  rewrite Forall_forall in Hall. eapply Hall, list_elem_of_lookup_2, Hs.
Qed.

Lemma uq_consistent_alt q :
  NoDup (UniqueQueue.que q) ->
  UniqueQueue.set q = list_to_set (UniqueQueue.que q) ->
  UniqueQueue.consistent q.
Proof. intros Hnd Hset. split; [done|]. intros x. rewrite Hset. apply elem_of_list_to_set. Qed.

Section NakedSets.

Variable iter_tuples : list (list nat) -> list (list nat).

(** Whatever the order in which a set of tuples is iterated, every tuple
    comes once. *)
Hypothesis iter_tuples_perm : ∀ l, iter_tuples l ≡ₚ l.

Lemma naked_group_schedule b b' g :
  value <$> cells b' = value <$> cells b ->
  naked_group iter_tuples b' g
  = foldl examine b'
      ((fun subset => (unknowns b g, subset)) <$> iter_tuples (powerset (unknowns b g))).
Proof.
  intros Hv. unfold naked_group. rewrite (unknowns_same_values b b' g Hv), foldl_fmap.
  destruct (0 <? length (unknowns b g)) eqn:Hlen; [done|].
  apply Nat.ltb_ge in Hlen. destruct (unknowns b g); [|simpl in Hlen; lia].
  assert (iter_tuples (powerset []) = []) as ->; [|done].
  apply Permutation_nil_r. by rewrite iter_tuples_perm.
Qed.

Lemma marked_step_examine b e : marked_step b (examine b e).
Proof. apply marked_step_naked_step. Qed.

Lemma foldl_naked_group_schedule b gs b' :
  value <$> cells b' = value <$> cells b ->
  foldl (naked_group iter_tuples) b' gs
  = foldl (fun a g =>
      foldl examine a
        ((fun subset => (unknowns b g, subset))
           <$> iter_tuples (powerset (unknowns b g)))) b' gs.
Proof.
  revert b'. induction gs as [|g gs IH]; intros b' Hv; [done|]. simpl.
  rewrite (naked_group_schedule b b' g Hv). apply IH.
  rewrite <- Hv. apply marked_values, marked_step_foldl, marked_step_examine.
Qed.

Lemma update_naked_sets_schedule b :
  update_naked_sets iter_tuples b = foldl examine b (naked_schedule iter_tuples b).
Proof.
  unfold update_naked_sets, naked_schedule. rewrite foldl_bind.
  by apply foldl_naked_group_schedule.
Qed.

Lemma elem_of_naked_schedule b unk_s subset :
  (unk_s, subset) ∈ naked_schedule iter_tuples b ↔
  ∃ g, g ∈ all_groups b ∧ unk_s = unknowns b g
       ∧ subset `sublist_of` unk_s ∧ 2 ≤ length subset.
Proof.
  unfold naked_schedule. rewrite list_elem_of_bind. split.
  - intros (g & (S & [= -> ->] & HS)%list_elem_of_fmap & Hg).
    rewrite iter_tuples_perm in HS. apply elem_of_powerset in HS as [Hs Hl].
    by exists g.
  - intros (g & Hg & -> & Hs & Hl). exists g. split; [|done].
    apply list_elem_of_fmap. exists subset. split; [done|].
    rewrite iter_tuples_perm. by apply elem_of_powerset.
Qed.

(** C5.  One pass of [update_naked_sets] over a board whose candidate
    lists have no repetition and whose worklist is consistent (every
    [sound] board: [sound_candidates]).
    - The pass examines, group after group, every subset [S] of at least
      two of the group's unassigned Spaces [U], and nothing else; the pass is
      the sequence of these examinations.
    - At each examination, on the board as the pass has left it so far: if
      the union of the candidates of [S] has exactly [|S|] values and
      [|S| < |U|], every Space of [U] outside [S] loses exactly the values of
      that union, and no other Space changes; otherwise nothing changes.
    - At each examination and over the whole pass, values stay as they
      are, candidates are only removed, and a Space is pending afterwards
      exactly when it was pending before or has lost a candidate. *)
Theorem naked_sets_pass (b : Sudoku) :
  Forall (fun s => NoDup (futures s)) (cells b) ->
  UniqueQueue.consistent (mod_q b) ->
  (∀ unk_s subset,
     (unk_s, subset) ∈ naked_schedule iter_tuples b ↔
     ∃ g, g ∈ all_groups b ∧ unk_s = unknowns b g
          ∧ subset `sublist_of` unk_s ∧ 2 ≤ length subset)
  ∧ update_naked_sets iter_tuples b = foldl examine b (naked_schedule iter_tuples b)
  ∧ (∀ before unk_s subset after,
       naked_schedule iter_tuples b = before ++ (unk_s, subset) :: after ->
       let b1 := foldl examine b before in
       let b2 := examine b1 (unk_s, subset) in
       (is_naked unk_s b1 subset ->
          ∀ k, futures (cells b2 !!! k)
               = if decide (k ∈ unk_s ∧ k ∉ subset)
                 then filter (fun v => v ∉ set_nums b1 subset) (futures (cells b1 !!! k))
                 else futures (cells b1 !!! k))
       ∧ (¬ is_naked unk_s b1 subset -> b2 = b1)
       ∧ value <$> cells b2 = value <$> cells b1
       ∧ (∀ x, x ∈ UniqueQueue.que (mod_q b2) ↔
               x ∈ UniqueQueue.que (mod_q b1)
               ∨ futures (cells b2 !!! x) ≠ futures (cells b1 !!! x)))
  ∧ (let b' := update_naked_sets iter_tuples b in
     value <$> cells b' = value <$> cells b
     ∧ candidates_shrink (cells b) (cells b')
     ∧ (∀ x, x ∈ UniqueQueue.que (mod_q b') ↔
             x ∈ UniqueQueue.que (mod_q b)
             ∨ futures (cells b' !!! x) ≠ futures (cells b !!! x))).
Proof.
  intros Hall Hc. pose proof (Forall_NoDup_futures _ Hall) as Hnd. split_and!.
  - intros unk_s subset. apply elem_of_naked_schedule.
  - apply update_naked_sets_schedule.
  - intros before unk_s subset after _ b1 b2.
    assert (marked_step b b1) as H1
      by apply marked_step_foldl, marked_step_examine.
    assert (marked_step b1 b2) as [Hq Hv Hm] by apply marked_step_examine.
    split_and!.
    + intros Hnaked k. apply naked_step_futures; [|done].
      eapply quiet_step_NoDup; [apply H1|done].
    + apply naked_step_not_naked.
    + done.
    + apply Hm. by apply (quiet_queue _ _ (marked_quiet _ _ H1)).
  - rewrite update_naked_sets_schedule.
    assert (marked_step b (foldl examine b (naked_schedule iter_tuples b)))
      as [Hq Hv Hm] by apply marked_step_foldl, marked_step_examine.
    split_and!; [done|apply Hq|by apply Hm].
Qed.

End NakedSets.

(** ** Boards the program keeps *)

Lemma narrowed_refl s : narrowed s s.
Proof. split_and!; [done..|by left]. Qed.

Lemma narrowed_kept s s' : neighbors s' = neighbors s -> kept s s' -> narrowed s s'.
Proof. intros Hn (Hv & Hs & _). split_and!; [done..|by left]. Qed.

Lemma narrowed_settled s s' :
  neighbors s' = neighbors s -> settled s s' -> narrowed s s'.
Proof.
  intros Hn (Hf & v & Hv & Hin & _). split_and!; [done| |].
  - rewrite Hf. apply sublist_nil_l.
  - right. split_and!; [|done|by rewrite Hv].
    intros Hnil. rewrite Hnil in Hin. by apply elem_of_nil in Hin.
Qed.

Lemma narrowed_alter f k (sp : list Space) :
  (∀ s, narrowed s (f s)) -> ∀ i, narrowed (sp !!! i) (alter f k sp !!! i).
Proof.
  intros Hf i. rewrite list_lookup_total_alter.
  case_decide as Hk; [|apply narrowed_refl]. destruct Hk as [-> _]. apply Hf.
Qed.

Lemma holes_narrowed (l l' : list Space) :
  length l' = length l -> (∀ i, narrowed (l !!! i) (l' !!! i)) ->
  holes (value <$> l') ≤ holes (value <$> l).
Proof.
  revert l'. induction l as [|x l IH]; intros [|x' l'] Hlen Hall; try done.
  unfold holes in *. rewrite !fmap_cons, !filter_cons.
  specialize (IH l' ltac:(by injection Hlen) (fun i => Hall (S i))).
  destruct (Hall 0) as (_ & _ & Hv). simpl in Hv.
  destruct (decide (value x' = None)) as [Hx'|Hx'],
    (decide (value x = None)) as [Hx|Hx]; simpl; try lia.
  destruct Hv as [Hv|(_ & _ & Hv)]; congruence.
Qed.

Lemma arena_ok_narrowed n0 (l l' : list Space) :
  arena_ok n0 l -> length l' = length l ->
  (∀ i, narrowed (l !!! i) (l' !!! i)) -> arena_ok n0 l'.
Proof.
  intros [Hlen Hass Hnd Hlink] Hl Hall. split.
  - congruence.
  - intros i Hv. destruct (Hall i) as (_ & Hs & [He|(_ & He & _)]); [|done].
    rewrite He in Hv. rewrite (Hass i Hv) in Hs. by apply sublist_nil_r in Hs.
  - intros i. destruct (Hall i) as (_ & Hs & _). by eapply sublist_NoDup.
  - intros i j Hi Hj. destruct (Hall i) as (-> & _). by apply Hlink.
Qed.

Lemma fmap_lookup_total_eq {B} (f : Space -> B) (l l' : list Space) i :
  f <$> l' = f <$> l -> f (l' !!! i) = f (l !!! i).
Proof.
  intros Heq. apply (f_equal (fun x => x !! i)) in Heq.
  rewrite !list_lookup_fmap in Heq. rewrite !list_lookup_total_alt.
  destruct (l' !! i), (l !! i); simpl in *; congruence.
Qed.

Lemma quiet_step_narrowed b b' :
  quiet_step b b' -> ∀ i, narrowed (cells b !!! i) (cells b' !!! i).
Proof.
  intros Hq i. split_and!.
  - apply fmap_lookup_total_eq, Hq.
  - apply Hq.
  - apply Hq.
Qed.

Lemma quiet_step_sound b b' : quiet_step b b' -> sound b -> sound b'.
Proof.
  intros Hq [Hc Hcells Hspaces].
  assert (arena_ok (n b') (cells b')) as Hcells'.
  { rewrite (quiet_n _ _ Hq).
    apply (arena_ok_narrowed _ (cells b)); [done|apply Hq|].
    by apply quiet_step_narrowed. }
  split; [by apply Hq|done|].
  unfold spaces in *. rewrite (quiet_adopted _ _ Hq).
  destruct (adopted b); [|done]. by rewrite (quiet_n _ _ Hq).
Qed.

Lemma quiet_step_holes b b' :
  quiet_step b b' -> holes (get_state b') ≤ holes (get_state b).
Proof.
  intros Hq. unfold get_state, spaces. rewrite (quiet_adopted _ _ Hq).
  destruct (adopted b); [done|].
  apply holes_narrowed; [apply Hq|by apply quiet_step_narrowed].
Qed.

Lemma marked_step_update_naked_sets iter_tuples b :
  marked_step b (update_naked_sets iter_tuples b).
Proof.
  unfold update_naked_sets. apply marked_step_foldl. intros b' g.
  unfold naked_group. destruct (0 <? _); [|apply marked_step_refl].
  apply marked_step_foldl. intros b'' subset. apply marked_step_naked_step.
Qed.

(** ** The loop of [solve] *)

Lemma total_futures_cons s l :
  total_futures (s :: l) = length (futures s) + total_futures l.
Proof. done. Qed.

Lemma candidates_shrink_cons s l s' l' :
  candidates_shrink (s :: l) (s' :: l') ->
  futures s' `sublist_of` futures s ∧ candidates_shrink l l'.
Proof.
  intros [Hlen Hall]. split; [apply (Hall 0)|].
  split; [by injection Hlen|]. intros i. apply (Hall (S i)).
Qed.

Lemma total_futures_shrink l l' :
  candidates_shrink l l' -> total_futures l' ≤ total_futures l.
Proof.
  revert l'. induction l as [|s l IH]; intros [|s' l'] Hs;
    try (destruct Hs as [Hs _]; done).
  apply candidates_shrink_cons in Hs as [Hs%sublist_length Hl%IH].
  rewrite !total_futures_cons. lia.
Qed.

Lemma total_futures_shrink_lt l l' i :
  candidates_shrink l l' ->
  futures (l' !!! i) ≠ futures (l !!! i) ->
  total_futures l' < total_futures l.
Proof.
  revert l' i. induction l as [|s l IH]; intros [|s' l'] i Hs Hne;
    try (destruct Hs as [Hs _]; done).
  apply candidates_shrink_cons in Hs as [Hs Hl].
  rewrite !total_futures_cons. destruct i as [|i]; simpl in Hne.
  - apply total_futures_shrink in Hl.
    destruct (decide (length (futures s) ≤ length (futures s'))) as [Hle|]; [|lia].
    destruct Hne. by apply sublist_same_length.
  - apply sublist_length in Hs. specialize (IH l' i Hl Hne). lia.
Qed.

Lemma values_or_progress (l l' : list Space) :
  candidates_shrink l l' ->
  (∀ i, value_step (l !!! i) (l' !!! i)) ->
  value <$> l' = value <$> l ∨ total_futures l' < total_futures l.
Proof.
  revert l'. induction l as [|s l IH]; intros [|s' l'] Hs Hv;
    try (destruct Hs as [Hs _]; done); [by left|].
  apply candidates_shrink_cons in Hs as [Hs Hl].
  rewrite !total_futures_cons, !fmap_cons.
  pose proof (sublist_length _ _ Hs) as Hlen.
  pose proof (total_futures_shrink _ _ Hl) as Htl.
  destruct (Hv 0) as [He|(Hne & He & _)]; simpl in *.
  - destruct (IH l' Hl (fun i => Hv (S i))) as [->|Hlt]; [left; by rewrite He|right; lia].
  - right. rewrite He. destruct (futures s); [done|]. simpl. lia.
Qed.

Section Loop.

Variable iter_tuples : list (list nat) -> list (list nat).

Lemma solve_loop_returns fuel st b :
  UniqueQueue.consistent (mod_q b) -> total_futures (cells b) < fuel ->
  ∃ st' b', solve_loop iter_tuples fuel st b = Ok (st', b') ∧ quiet_step b b'.
Proof.
  revert st b. induction fuel as [|fuel IH]; intros st b Hc Hfuel; [lia|].
  simpl. destruct (negb (is_solved b) && negb (has_conflict b));
    [|eexists _, _; split; [done|apply quiet_step_refl]].
  pose proof (constraint_solve_loop_spec (variant b) b (le_n _)) as Hspec.
  unfold constraint_solve.
  destruct (constraint_solve_loop (variant b) b) as [b1|e|];
    [|by destruct Hspec..].
  destruct Hspec as [Hq1 Hs1]. simpl.
  pose proof (marked_step_update_naked_sets iter_tuples b1) as Hm.
  set (b2 := update_naked_sets iter_tuples b1) in *.
  assert (quiet_step b b2) as Hs2
    by (eapply quiet_step_trans; [done|apply Hm]).
  destruct (bool_decide (get_state b2 = get_state b)
            && UniqueQueue.empty (mod_q b2)) eqn:Hstop.
  { by eexists _, _. }
  destruct (IH (mkShared (states st) (S (cycles st)) (recurse st)) b2)
    as (st' & b' & Hrun & Hs'); [by apply Hs2| |].
  - enough (total_futures (cells b2) < total_futures (cells b)) by lia.
    apply andb_false_iff in Hstop as [Hstate|Hqueue].
    + apply bool_decide_eq_false in Hstate.
      destruct (values_or_progress (cells b) (cells b2)) as [Hv|]; [apply Hs2..| |done].
      destruct Hstate. unfold get_state, spaces. rewrite (quiet_adopted _ _ Hs2).
      by destruct (adopted b).
    + unfold UniqueQueue.empty in Hqueue. apply Nat.eqb_neq in Hqueue.
      destruct (UniqueQueue.que (mod_q b2)) as [|x rest] eqn:Hq2; [done|].
      assert (x ∈ UniqueQueue.que (mod_q b2)) as Hx by (rewrite Hq2; by left).
      apply (marked_queue _ _ Hm) in Hx; [|by apply Hs1].
      rewrite Hq1 in Hx. destruct Hx as [Hx|Hx]; [by apply elem_of_nil in Hx|].
      pose proof (total_futures_shrink _ _ (quiet_shrink _ _ Hs1)).
      pose proof (total_futures_shrink_lt _ _ x (quiet_shrink _ _ (marked_quiet _ _ Hm)) Hx).
      lia.
  - exists st', b'. split; [done|]. by eapply quiet_step_trans.
Qed.

End Loop.

(** ** Trials that return *)

Lemma holes_insert_Some (l : list (option Z)) k v :
  l !! k = Some None -> S (holes (<[k := Some v]> l)) = holes l.
Proof.
  unfold holes. revert k. induction l as [|x l IH]; intros [|k] Hk; try done.
  - injection Hk as ->. simpl. by rewrite !filter_cons.
  - simpl in *. rewrite !filter_cons.
    destruct (decide (x = None)); simpl; by rewrite (IH k).
Qed.

Lemma trial_layout n0 (sp : list Space) k v :
  arena_ok n0 sp -> v ∈ futures (sp !!! k) ->
  length (<[k := Some v]> (value <$> sp)) = n0 ^ 4
  ∧ S (holes (<[k := Some v]> (value <$> sp))) = holes (value <$> sp).
Proof.
  intros Hok Hin. split.
  - rewrite length_insert, length_fmap. apply Hok.
  - apply holes_insert_Some.
    assert (k < length sp) as Hk.
    { apply lookup_total_futures_nonempty. intros Hnil. rewrite Hnil in Hin.
      by apply elem_of_nil in Hin. }
    destruct (lookup_lt_is_Some_2 sp k Hk) as [s Hs].
    rewrite list_lookup_fmap, Hs. simpl. f_equal.
    pose proof (arena_assigned _ _ Hok k) as Hass.
    rewrite (list_lookup_total_correct _ _ _ Hs) in Hass, Hin.
    destruct (value s); [|done]. rewrite Hass in Hin by done.
    by apply elem_of_nil in Hin.
Qed.

Lemma sound_set_spaces sp b :
  sound b -> arena_ok (n b) sp -> sound (set_spaces sp b).
Proof.
  intros [Hq Hc Hs] Hok. unfold set_spaces.
  destruct (adopted b) eqn:Ha; split; simpl; try done.
  unfold spaces. simpl. by rewrite Ha.
Qed.

Lemma sound_set_adopted w b :
  sound b -> arena_ok (n b) w -> sound (set_adopted (Some w) b).
Proof. intros [Hq Hc Hs] Hok. by split. Qed.

Section Trials.

Variable trial :
  nat -> Shared -> list (option Z) -> res (Shared * option (list Space)).
Variables n0 budget : nat.

(** What is asked of the trials: on a layout of the size of the board with
    fewer than [budget] holes a trial returns, and the Spaces of a solved
    trial are sound and have no more holes than the layout. *)
Hypothesis trial_returns : ∀ i st lay,
  length lay = n0 ^ 4 -> holes lay < budget ->
  ∃ st' won, trial i st lay = Ok (st', won)
    ∧ ∀ w, won = Some w -> arena_ok n0 w ∧ holes (value <$> w) ≤ holes lay.

Lemma sweep_narrowed js k i st sp st' sp' won :
  Forall (fun j => 1 ≤ j) js ->
  sweep trial js k i st sp = Ok (st', sp', won) ->
  length sp' = length sp ∧ ∀ k', narrowed (sp !!! k') (sp' !!! k').
Proof.
  intros Hjs Hsw. apply sweep_frame in Hsw as (Hl & Hother & Hn & Hrel); [|done].
  split; [done|]. intros k'. destruct (decide (k' = k)) as [->|Hne].
  - destruct Hrel; [by apply narrowed_kept|by apply narrowed_settled].
  - rewrite (lookup_total_ext sp' sp k') by auto. apply narrowed_refl.
Qed.

Lemma sweep_sound m k i st sp :
  arena_ok n0 sp -> holes (value <$> sp) ≤ budget ->
  m < length (futures (sp !!! k)) ->
  ∃ st' sp' won, sweep trial (range_down m) k i st sp = Ok (st', sp', won)
    ∧ ∀ w, won = Some w ->
           arena_ok n0 w ∧ holes (value <$> w) ≤ holes (value <$> sp).
Proof.
  revert st sp. induction m as [|m IH]; intros st sp Hok Hb Hm.
  { by eexists _, _, _. }
  rewrite range_down_S. simpl.
  destruct (lookup_lt_is_Some_2 (futures (sp !!! k)) (S m) Hm) as [v Hv].
  rewrite Hv. pose proof (list_elem_of_lookup_2 _ _ _ Hv) as Hin.
  destruct (trial_layout n0 sp k v Hok Hin) as [Hlen Hholes].
  unfold try_candidate. case_bool_decide; [apply IH; [done..|lia]|].
  match goal with
  | |- context [trial ?a ?b ?c] =>
      destruct (trial_returns a b c) as (st3 & won & -> & Hwon); [done|lia|]
  end.
  simpl. destruct won as [w|].
  { eexists _, _, _. split; [done|]. intros w' [= <-].
    destruct (Hwon w eq_refl). split; [done|lia]. }
  set (f := fun s => set_futures (list_remove v (futures s)) s).
  assert (∀ k', narrowed (sp !!! k') (alter f k sp !!! k')) as Hnar.
  { apply narrowed_alter. intros s. split_and!; [done| |by left].
    apply list_remove_sublist. }
  pose proof (holes_narrowed sp (alter f k sp) (length_alter _ _ _) Hnar) as Hh.
  destruct (_ =? 1); [by eexists _, _, _|].
  destruct (IH st3 (alter f k sp)) as (st' & sp' & won' & Hrun & Hpost).
  - apply (arena_ok_narrowed _ sp); [done|apply length_alter|done].
  - lia.
  - assert (k < length sp) as Hk.
    { apply lookup_total_futures_nonempty. intros Hnil. by rewrite Hnil in Hv. }
    rewrite list_lookup_total_alter_eq by done. simpl.
    pose proof (list_remove_length v (futures (sp !!! k)) Hin). lia.
  - exists st', sp', won'. split; [done|]. intros w Hw.
    destruct (Hpost w Hw). split; [done|lia].
Qed.

Lemma backtrack_cells_sound ks i st sp :
  arena_ok n0 sp -> holes (value <$> sp) ≤ budget ->
  ∃ st' sp' won, backtrack_cells trial ks i st sp = Ok (st', sp', won)
    ∧ arena_ok n0 sp'
    ∧ holes (value <$> sp') ≤ holes (value <$> sp)
    ∧ ∀ w, won = Some w ->
           arena_ok n0 w ∧ holes (value <$> w) ≤ holes (value <$> sp).
Proof.
  revert st sp. induction ks as [|k ks IH]; intros st sp Hok Hb.
  { by eexists _, _, _. }
  rewrite backtrack_cells_cons.
  destruct ((2 <=? length (futures (sp !!! k)))
            && (length (futures (sp !!! k)) <=? i)) eqn:Hsel; [|by apply IH].
  apply andb_true_iff in Hsel as [H2%Nat.leb_le _].
  destruct (sweep_sound (length (futures (sp !!! k)) - 1) k i st sp)
    as (st1 & sp1 & won1 & Hsw & Hpost1); [done|done|lia|].
  rewrite Hsw. simpl.
  apply sweep_narrowed in Hsw as [Hl1 Hnar1]; [|apply Forall_range_down].
  pose proof (arena_ok_narrowed _ _ _ Hok Hl1 Hnar1) as Hok1.
  pose proof (holes_narrowed _ _ Hl1 Hnar1) as Hh1.
  destruct won1 as [w|].
  { by eexists _, _, _. }
  destruct (IH st1 sp1) as (st' & sp' & won & Hrun & Hok' & Hh' & Hpost);
    [done|lia|].
  exists st', sp', won. split_and!; [done|done|lia|].
  intros w Hw. destruct (Hpost w Hw). split; [done|lia].
Qed.

Lemma backtrack_and_rebind_sound st b i :
  sound b -> n b = n0 -> holes (get_state b) ≤ budget ->
  ∃ st' b', backtrack_and_rebind trial (st, b) i = Ok (st', b')
    ∧ sound b' ∧ n b' = n b
    ∧ holes (get_state b') ≤ holes (get_state b).
Proof.
  intros Hs Hn Hb. unfold backtrack_and_rebind, recursive_backtrack. simpl.
  destruct (backtrack_cells_sound (seq 0 (length (spaces b))) i st (spaces b))
    as (st' & sp' & won & -> & Hok' & Hh' & Hpost);
    [rewrite <- Hn; apply Hs|done|].
  simpl. eexists _, _. split; [done|].
  assert (sound (set_spaces sp' b)) as Hs'
    by (apply sound_set_spaces; [done|by rewrite Hn]).
  assert (n (set_spaces sp' b) = n b) as Hn'
    by (unfold set_spaces; by destruct (adopted b)).
  destruct won as [w|].
  - destruct (Hpost w eq_refl) as [Hw Hhw]. split_and!; [|done|done].
    apply sound_set_adopted; [done|]. by rewrite Hn', Hn.
  - split_and!; [done..|]. unfold get_state at 1. by rewrite spaces_set_spaces.
Qed.

Lemma backtrack_passes_sound (thresholds : list nat) st b :
  sound b -> n b = n0 -> holes (get_state b) ≤ budget ->
  ∃ st' b', for_res (backtrack_and_rebind trial) thresholds (st, b) = Ok (st', b')
    ∧ sound b' ∧ n b' = n b
    ∧ holes (get_state b') ≤ holes (get_state b).
Proof.
  revert st b. induction thresholds as [|i thresholds IH]; intros st b Hs Hn Hb.
  { by eexists _, _. }
  simpl.
  destruct (backtrack_and_rebind_sound st b i) as (st1 & b1 & -> & Hs1 & Hn1 & Hh1);
    [done..|].
  simpl. destruct (IH st1 b1) as (st' & b' & Hrun & Hs' & Hn' & Hh');
    [done|congruence|lia|].
  exists st', b'. split_and!; [done|done|congruence|lia].
Qed.

End Trials.

(** ** The board the constructor builds is sound *)

Lemma uq_consistent_foldl_put (l : list nat) q :
  UniqueQueue.consistent q ->
  UniqueQueue.consistent (foldl (fun q i => UniqueQueue.put i q) q l).
Proof.
  revert q. induction l as [|i l IH]; intros q Hq; [done|].
  simpl. by apply IH, uq_consistent_put.
Qed.

Lemma group_loop_length (idx : nat -> nat) (G : list (list nat)) l :
  length (foldl (fun G i => group_add i (idx i) G) G l) = length G.
Proof.
  revert G. induction l as [|i l IH]; intros G; [done|].
  simpl. rewrite IH. apply length_alter.
Qed.

Lemma group_loop_elem (idx : nat -> nat) N m g j :
  g < N ->
  j ∈ foldl (fun G i => group_add i (idx i) G) (replicate N []) (seq 0 m) !!! g
  ↔ j < m ∧ idx j = g.
Proof.
  intros Hg. induction m as [|m IH].
  - simpl. rewrite list_lookup_total_alt, lookup_replicate_2 by done. simpl.
    rewrite elem_of_nil. lia.
  - rewrite seq_S, foldl_app. simpl. unfold group_add at 1.
    rewrite list_lookup_total_alter. case_decide as Hk.
    + destruct Hk as [Hk _]. rewrite Hk, elem_of_app, list_elem_of_singleton, IH.
      split; [intros [[? ?]| ->]; split; lia|].
      intros [Hj ?]. destruct (decide (j = m)); [by right|left; split; [lia|done]].
    + rewrite IH. split; [intros [? ?]; split; [lia|done]|].
      intros [Hj Hidx]. split; [|done].
      destruct (decide (j = m)) as [->|]; [|lia].
      destruct Hk. split; [done|].
      by rewrite group_loop_length, length_replicate, Hidx.
Qed.

Lemma row_index_lt n i : i < n ^ 4 -> row_index n i < n ^ 2.
Proof.
  intros Hi. unfold row_index. apply Nat.Div0.div_lt_upper_bound.
  by rewrite <- pow_4_sq.
Qed.

Lemma col_index_lt n i : i < n ^ 4 -> col_index n i < n ^ 2.
Proof.
  intros Hi. unfold col_index. apply Nat.mod_upper_bound.
  intros Hz. rewrite pow_4_sq, Hz in Hi. lia.
Qed.

Lemma block_index_lt n i : i < n ^ 4 -> block_index n i < n ^ 2.
Proof.
  intros Hi. unfold block_index.
  assert (n ≠ 0) as Hn by (intros ->; rewrite pow_4_sq, Nat.pow_2_r in Hi; lia).
  pose proof (Nat.mod_upper_bound (i / n) n Hn) as Hm.
  assert (i / (n ^ 2 * n) < n) as Hd.
  { apply Nat.Div0.div_lt_upper_bound.
    replace (n ^ 2 * n * n) with (n ^ 4); [done|].
    by rewrite pow_4_sq, (Nat.pow_2_r n), Nat.mul_assoc. }
  rewrite Nat.pow_2_r in Hd |- *. nia.
Qed.

Section ConstructorSound.

Variable iter_spaces : list nat -> list nat.

(** Whatever the order in which a set of Spaces is iterated, every Space
    comes once. *)
Hypothesis iter_spaces_perm : ∀ l, iter_spaces l ≡ₚ l.

Lemma link_loop_length n0 l b :
  length (cells (foldl (link_space iter_spaces n0) b l)) = length (cells b).
Proof.
  destruct (link_loop_frame iter_spaces n0 l b) as (Hv & _).
  apply (f_equal length) in Hv. by rewrite !length_fmap in Hv.
Qed.

Lemma link_loop_neighbors n0 m b i :
  i < m -> m ≤ length (cells b) ->
  neighbors (cells (foldl (link_space iter_spaces n0) b (seq 0 m)) !!! i)
  = iter_spaces (filter (fun j => j ≠ i)
      (remove_dups (concat [blocks b !!! block_index n0 i;
                            rows b !!! row_index n0 i;
                            cols b !!! col_index n0 i]))).
Proof.
  induction m as [|m IH]; intros Hi Hm; [lia|].
  rewrite seq_S, foldl_app. simpl.
  set (b' := foldl _ b (seq 0 m)) in *.
  destruct (link_loop_frame iter_spaces n0 (seq 0 m) b)
    as (_ & _ & _ & _ & Hb & Hr & Hc & _). fold b' in Hb, Hr, Hc.
  pose proof (link_loop_length n0 (seq 0 m) b) as Hlen. fold b' in Hlen.
  unfold link_space, upd_cell. simpl. rewrite list_lookup_total_alter.
  case_decide as Hk.
  - destruct Hk as [-> _]. by rewrite Hb, Hr, Hc.
  - apply IH; [|lia]. destruct (decide (i = m)) as [->|]; [|lia].
    destruct Hk. split; [done|lia].
Qed.

Lemma Sudoku_init_sound starting_layout n0 :
  n0 ^ 4 ≤ length starting_layout ->
  ∃ b, Sudoku_init iter_spaces starting_layout n0 = Ok b
       ∧ sound b
       ∧ get_state b = take (n0 ^ 4) starting_layout
       ∧ n b = n0.
Proof.
  intros Hlen. unfold Sudoku_init.
  edestruct (place_loop starting_layout n0 (n0 ^ 4)) as (b1 & -> & Hp); [done|].
  simpl. eexists. split; [reflexivity|].
  destruct (link_loop_frame iter_spaces n0 (seq 0 (n0 ^ 4)) b1)
    as (Hv & Hf & Ha & Hq & Hb & Hr & Hc & Hn & _).
  pose proof (link_loop_length n0 (seq 0 (n0 ^ 4)) b1) as Hl.
  set (b2 := foldl _ b1 (seq 0 (n0 ^ 4))) in *.
  destruct Hp as [Hcells Hadopted Hn1 _ _ Hq1 Hb1 Hr1 Hc1].
  cbn [cells app adopted n mod_q blocks rows cols] in *.
  assert (length (cells b1) = n0 ^ 4) as Hl1.
  { rewrite Hcells, length_fmap, length_take. lia. }
  assert (∀ i, futures (cells b2 !!! i)
               = futures (Space_init (value (cells b2 !!! i)) n0)
               ∨ futures (cells b2 !!! i) = []) as Hshape.
  { intros i.
    rewrite (fmap_lookup_total_eq value _ _ i Hv), (fmap_lookup_total_eq futures _ _ i Hf).
    rewrite Hcells, list_lookup_total_alt, list_lookup_fmap.
    destruct (take (n0 ^ 4) starting_layout !! i); simpl; [by left|by right]. }
  assert (arena_ok n0 (cells b2)) as Hok.
  { split.
    - congruence.
    - intros i Hne. destruct (Hshape i) as [Hf'|Hf']; [|done].
      rewrite Hf'. by destruct (value (cells b2 !!! i)).
    - intros i. destruct (Hshape i) as [Hf'|Hf']; rewrite Hf'; [|apply NoDup_nil_2].
      destruct (value (cells b2 !!! i)); simpl; [apply NoDup_nil_2|].
      apply NoDup_fmap_2; [apply _|apply NoDup_seq].
    - intros i j Hi Hj. unfold b2.
      rewrite link_loop_neighbors, iter_spaces_perm by lia.
      rewrite list_elem_of_filter, elem_of_remove_dups. simpl.
      rewrite !elem_of_app, elem_of_nil, Hb1, Hr1, Hc1.
      cbn [blocks rows cols].
      rewrite !group_loop_elem
        by (by apply block_index_lt || by apply row_index_lt || by apply col_index_lt).
      unfold same_group. split.
      + intros (Hne & [[_ ?]|[[_ ?]|[[_ ?]|[]]]]); split; auto.
      + intros (Hne & [?|[?|?]]); split; auto 10. }
  split_and!.
  - split; cbn [mod_q cells n set_cols set_rows set_blocks].
    + rewrite Hq, Hq1. apply uq_consistent_foldl_put, uq_consistent_new.
    + by rewrite Hn, Hn1.
    + unfold spaces. cbn [adopted cells n set_cols set_rows set_blocks].
      rewrite Ha, Hadopted, Hn, Hn1. done.
  - unfold get_state, spaces. cbn [adopted cells set_cols set_rows set_blocks].
    rewrite Ha, Hadopted. cbn [adopted].
    rewrite Hv, Hcells. apply fmap_value_Space_init.
  - cbn [n set_cols set_rows set_blocks]. by rewrite Hn, Hn1.
Qed.

End ConstructorSound.

Lemma sound_candidates b :
  sound b ->
  Forall (fun s => NoDup (futures s)) (cells b)
  ∧ UniqueQueue.consistent (mod_q b).
Proof.
  intros [Hq [_ _ Hnd _] _]. split; [|done].
  apply Forall_lookup. intros i s Hs.
  specialize (Hnd i). by rewrite (list_lookup_total_correct _ _ _ Hs) in Hnd.
Qed.

Lemma sound_well_linked b : sound b -> well_linked b.
Proof.
  intros [_ _ [Hlen _ _ Hlink]]. split; [done|].
  apply Forall_forall. intros i Hi%elem_of_seq.
  apply Forall_forall. intros j Hj%elem_of_seq. apply Hlink; lia.
Qed.

(** ** [solve] returns *)

Section Solver.

Variable iter_spaces : list nat -> list nat.
Variable iter_tuples : list (list nat) -> list (list nat).
Hypothesis iter_spaces_perm : ∀ l, iter_spaces l ≡ₚ l.

Lemma run_trial_sound solve_rec n0 budget d i st lay :
  solves budget solve_rec ->
  length lay = n0 ^ 4 -> holes lay < budget ->
  ∃ st' won, run_trial iter_spaces solve_rec n0 d i st lay = Ok (st', won)
    ∧ ∀ w, won = Some w -> arena_ok n0 w ∧ holes (value <$> w) ≤ holes lay.
Proof.
  intros Hrec Hlen Hh. unfold run_trial.
  destruct (Sudoku_init_sound iter_spaces iter_spaces_perm lay n0)
    as (g & -> & Hs & Hst & Hn); [lia|].
  rewrite <- Hlen, firstn_all in Hst. simpl.
  destruct (Hrec st (set_trial (S d) i g)) as (st' & g' & -> & Hs' & Hn' & Hh').
  { by destruct Hs. }
  { by rewrite <- Hst in Hh. }
  change (n (set_trial (S d) i g)) with (n g) in Hn'.
  change (get_state (set_trial (S d) i g)) with (get_state g) in Hh'.
  simpl. eexists _, _. split; [done|]. intros w Hw.
  destruct (is_solved g'); [|done]. injection Hw as <-. split.
  - rewrite <- Hn, <- Hn'. apply Hs'.
  - rewrite <- Hst. apply Hh'.
Qed.

Lemma begin_backtrace_sound solve_rec budget st b :
  solves budget solve_rec ->
  sound b -> holes (get_state b) ≤ budget ->
  ∃ st' b', begin_backtrace iter_spaces solve_rec st b = Ok (st', b')
    ∧ sound b' ∧ n b' = n b
    ∧ holes (get_state b') ≤ holes (get_state b).
Proof.
  intros Hrec Hs Hh. unfold begin_backtrace.
  destruct (negb (is_solved b) && negb (has_conflict b)); [|by eexists _, _].
  destruct (depth b =? 0).
  - eapply backtrack_passes_sound; [|done..].
    intros i' st' lay. by apply run_trial_sound.
  - eapply backtrack_and_rebind_sound; [|done..].
    intros i' st' lay. by apply run_trial_sound.
Qed.

Lemma solve_S fuel st b :
  solve iter_spaces iter_tuples (S fuel) st b
  = '(st1, b1) ← solve_loop iter_tuples (S (total_futures (cells b))) st b;
    begin_backtrace iter_spaces (solve iter_spaces iter_tuples fuel) st1 b1.
Proof. done. Qed.

Lemma solve_sound fuel : solves fuel (solve iter_spaces iter_tuples fuel).
Proof.
  induction fuel as [|fuel IH]; intros st b Hs Hh; [lia|]. rewrite solve_S.
  destruct (solve_loop_returns iter_tuples (S (total_futures (cells b))) st b)
    as (st1 & b1 & -> & Hq); [apply Hs|lia|].
  simpl. pose proof (quiet_step_holes _ _ Hq) as Hh1.
  destruct (begin_backtrace_sound (solve iter_spaces iter_tuples fuel) fuel st1 b1)
    as (st' & b' & -> & Hs' & Hn' & Hh'); [done|by eapply quiet_step_sound|lia|].
  exists st', b'. split_and!; [done..| |lia].
  rewrite Hn'. apply Hq.
Qed.

(** C8, as the code has it.  On a sound board (every board the constructor
    builds and [solve] works on), with [fuel] for at least as many nested
    trials as the board has unassigned cells, a call of
    [recursive_backtrack] returns, and what it leaves of the current board
    is this.  Every assigned Space is untouched, as is every Space whose
    number of candidates is outside [2..i].  A Space with [2] to [i]
    candidates either keeps its value [None] and loses candidates other
    than the first, or was swept down to one candidate: it is then
    assigned that candidate, the first of its list, although no trial was
    run for it, and its list is emptied.  Neighbors, groups and worklist
    are as they were, and the board is sound again.  This holds in
    particular when no trial is solved ([won] is [None]) and the call
    returns [self.spaces]. *)
Theorem backtrack_frame (b : Sudoku) (i fuel : nat) (st : Shared) :
  sound b -> holes (get_state b) ≤ fuel ->
  ∃ st' b' won,
    recursive_backtrack
      (run_trial iter_spaces (solve iter_spaces iter_tuples fuel) (n b) (depth b))
      b i st
    = Ok (st', b', won)
    ∧ sound b'
    ∧ length (spaces b') = length (spaces b)
    ∧ (∀ k, eliminated i (spaces b !!! k) (spaces b' !!! k))
    ∧ (∀ k, value (spaces b !!! k) ≠ None -> spaces b' !!! k = spaces b !!! k)
    ∧ mod_q b' = mod_q b ∧ blocks b' = blocks b ∧ rows b' = rows b
    ∧ cols b' = cols b ∧ n b' = n b ∧ depth b' = depth b
    ∧ iter_wide b' = iter_wide b.
Proof.
  intros Hs Hh. unfold recursive_backtrack.
  set (trial := run_trial _ _ _ _).
  destruct (backtrack_cells_sound trial (n b) fuel
              (fun i' st0 lay => run_trial_sound _ _ _ _ i' st0 lay (solve_sound fuel))
              (seq 0 (length (spaces b))) i st (spaces b))
    as (st' & sp' & won & Hrun & Hok' & _ & _); [apply Hs|done|].
  rewrite Hrun. simpl. exists st', (set_spaces sp' b), won. split; [done|].
  apply backtrack_cells_frame in Hrun as [Hl Hall]; [|apply NoDup_seq].
  rewrite spaces_set_spaces.
  split_and!;
    [by apply sound_set_spaces|done|apply Hall|
     |unfold set_spaces; by destruct (adopted b)..].
  intros k Hv. destruct (Hall k) as [_ [Hn [He|[[H2 _] _]]]]; [done|].
  rewrite (arena_assigned _ _ (sound_spaces _ Hs) k Hv) in H2. simpl in H2. lia.
Qed.

(** The whole program returns: a board built from a layout that is long
    enough is solved, or given up, within [n^4 + 1] nested trials, and the
    board [solve] leaves is sound. *)
Lemma solve_returns starting_layout n0 st :
  n0 ^ 4 ≤ length starting_layout ->
  ∃ b st' b',
    Sudoku_init iter_spaces starting_layout n0 = Ok b
    ∧ solve iter_spaces iter_tuples (S (n0 ^ 4)) st b = Ok (st', b')
    ∧ sound b'.
Proof.
  intros Hlen.
  destruct (Sudoku_init_sound iter_spaces iter_spaces_perm starting_layout n0 Hlen)
    as (b & Hb & Hs & Hst & _).
  destruct (solve_sound (S (n0 ^ 4)) st b Hs) as (st' & b' & Hrun & Hs' & _).
  - rewrite Hst. unfold holes.
    pose proof (length_filter (fun v => v = None) (take (n0 ^ 4) starting_layout)).
    rewrite length_take in *. lia.
  - by exists b, st', b'.
Qed.

End Solver.

(** * Examples *)

(** The program on the left runs the code and collects what is observed;
    the right side is what comes out. *)
Ltac run := vm_compute; reflexivity.

Ltac decide_by_computation := apply (bool_decide_unpack _); vm_compute; exact I.

(** C1 fails as stated: the grid written with the digits 0 to 3 is solved
    for [is_solved], and its first row is not a permutation of 1..4. *)
Lemma solved_with_digits_from_zero :
  (b ← Sudoku_init id digits_4x4 2;
   '(_, b') ← solve id id 1 fresh b;
   Ok (is_solved b', group_values b' (row_cells 2 0)))
  = Ok (true, [Some 0; Some 1; Some 2; Some 3]%Z)
  ∧ ¬ ([Some 0; Some 1; Some 2; Some 3]%Z ≡ₚ one_to_N 2).
Proof.
  split; [run|]. intros Hp.
  assert (Some 0%Z ∈ one_to_N 2) as Hin by (rewrite <- Hp; by left).
  revert Hin. apply (proj1 (bool_decide_eq_false _)). run.
Qed.

(** The first row of the solved grid [full_4x4] is a permutation of 1..4. *)
Lemma solved_groups_distinct_witness :
  is_solved (solved full_4x4 2) = true
  ∧ group_values (solved full_4x4 2) (row_cells 2 0) ≡ₚ one_to_N 2.
Proof.
  split; [run|].
  apply (solved_groups_distinct (solved full_4x4 2) (row_cells 2 0)).
  - decide_by_computation.
  - run.
  - decide_by_computation.
  - decide_by_computation.
Defined.

(** C2 fails as stated: a layout with the value 9 on a 4x4 board, and a
    layout of 17 entries, are both accepted. *)
Lemma init_accepts_any_values :
  (b ← Sudoku_init id wide_4x4 2; Ok (get_state b)) = Ok wide_4x4
  ∧ (b ← Sudoku_init id long_4x4 2; Ok (get_state b)) = Ok empty_4x4.
Proof. split; run. Qed.

(** A layout of 16 entries read back from the board built from it. *)
Lemma get_state_of_init_witness :
  length full_4x4 = 2 ^ 4
  ∧ ∃ b, Sudoku_init id full_4x4 2 = Ok b ∧ get_state b = full_4x4.
Proof. split; [reflexivity|]. apply (get_state_of_init id full_4x4 2). reflexivity. Defined.

(** C3: the thresholds of a root call stop short of [n^2].  On the empty
    4x4 board every Space has 4 candidates; [solve] goes through the
    thresholds 2 and 3, runs no trial ([recurse] stays 0) and returns the
    board as it was, neither solved nor in conflict.  One more pass at the
    threshold 4 = [n^2] runs 7 trials and delivers a solved grid. *)
Lemma empty_board_left_unsolved :
  (b ← Sudoku_init id empty_4x4 2;
   '(st, b') ← solve id id 1 fresh b;
   '(st', _, won) ← recursive_backtrack (real_trial 2 16) b' 4 fresh;
   Ok (is_solved b', has_conflict b', recurse st, get_state b',
       recurse st', returned_values won))
  = Ok (false, false, 0, empty_4x4, 7,
        Some ((Some <$> [4; 3; 2; 1;  2; 1; 4; 3;  3; 4; 1; 2;  1; 2; 3; 4]%Z)
              : list (option Z))).
Proof. run. Qed.

(** C4 fails as stated.  The 9x9 puzzle is stuck after the loop of [solve];
    its first Space has the candidates 1 and 9 and is the only one with two
    candidates.  The pass at threshold 2 runs one trial, for 9; the trial is
    not solved, 9 is removed and the Space is assigned 1: the candidate 1 is
    never tried (the only layout visited has 9 in the first cell). *)
Lemma first_candidate_untried :
  ('(_, b) ← stuck_9x9;
   '(st', b', won) ← recursive_backtrack (real_trial 3 1) b 2 fresh;
   Ok (futures (spaces b !!! 0), recurse st', elements (states st'),
       value (spaces b' !!! 0)))
  = Ok ([1; 9]%Z, 1, [<[0 := Some 9%Z]> puzzle_9x9], Some 1%Z).
Proof. run. Qed.

(** The sweep of the first Space of the empty 4x4 board at threshold 4 goes
    through 4, 3, 2 and leaves out 1. *)
Lemma sweep_skips_first_witness :
  NoDup (futures (spaces (built empty_4x4 2) !!! 0))
  ∧ sweep failing_trial (range_down 3) 0 4 fresh (spaces (built empty_4x4 2))
    = sweep_values failing_trial [4; 3; 2]%Z 0 4 fresh (spaces (built empty_4x4 2)).
Proof.
  split; [decide_by_computation|].
  apply (sweep_skips_first failing_trial 0 4 fresh (spaces (built empty_4x4 2))).
  decide_by_computation.
Defined.

(** C8 fails as stated.  On the same stuck puzzle the pass at threshold 2
    solves no trial and returns the current board, and the first cell,
    unassigned when the call started, is assigned 1 when it returns. *)
Lemma failed_pass_assigns_a_value :
  ('(_, b) ← stuck_9x9;
   '(_, b', won) ← recursive_backtrack (real_trial 3 1) b 2 fresh;
   Ok (is_solved b, has_conflict b, get_state b,
       returned_values won, get_state b'))
  = Ok (false, false, puzzle_9x9, None, <[0 := Some 1%Z]> puzzle_9x9).
Proof. run. Qed.

(** The pass at threshold 4 over the empty 4x4 board, with its real
    trials, returns and keeps 16 Spaces. *)
Lemma backtrack_frame_witness :
  (∀ l : list nat, id l ≡ₚ l)
  ∧ sound (built empty_4x4 2)
  ∧ holes (get_state (built empty_4x4 2)) ≤ 16
  ∧ ∃ st' b' won,
      recursive_backtrack (real_trial 2 16) (built empty_4x4 2) 4 fresh
      = Ok (st', b', won)
      ∧ length (spaces b') = 16.
Proof.
  assert (∀ l : list nat, id l ≡ₚ l) as Hperm by done.
  assert (sound (built empty_4x4 2)) as Hs.
  { destruct (Sudoku_init_sound id Hperm empty_4x4 2) as (b & Hb & Hs & _);
      [by vm_compute|].
    unfold built. by rewrite Hb. }
  assert (holes (get_state (built empty_4x4 2)) ≤ 16) as Hh by (by vm_compute).
  split_and!; [done..|].
  destruct (backtrack_frame id id Hperm (built empty_4x4 2) 4 16 fresh Hs Hh)
    as (st' & b' & won & Hrun & _ & Hlen & _).
  exists st', b', won. split; [exact Hrun|]. rewrite Hlen. reflexivity.
Defined.

(** On the 4x4 board whose first row starts with 1 and 2, the cells at
    positions 2 and 3 form a naked pair of their block: the pass removes 3
    and 4 from the two cells below them, marks both, and changes no
    value. *)
Lemma naked_sets_pass_witness :
  (∀ l : list (list nat), id l ≡ₚ l)
  ∧ Forall (fun s => NoDup (futures s)) (cells (propagated pair_4x4 2))
  ∧ UniqueQueue.consistent (mod_q (propagated pair_4x4 2))
  ∧ (futures <$> cells (propagated pair_4x4 2)) !! 6 = Some [1; 2; 3; 4]%Z
  ∧ (futures <$> cells (update_naked_sets id (propagated pair_4x4 2))) !! 6
    = Some [1; 2]%Z
  ∧ UniqueQueue.que (mod_q (update_naked_sets id (propagated pair_4x4 2))) = [6; 7]
  ∧ value <$> cells (update_naked_sets id (propagated pair_4x4 2))
    = value <$> cells (propagated pair_4x4 2).
Proof.
  assert (∀ l : list (list nat), id l ≡ₚ l) as Hperm by done.
  assert (Forall (fun s => NoDup (futures s)) (cells (propagated pair_4x4 2))) as Hnd
    by decide_by_computation.
  assert (UniqueQueue.consistent (mod_q (propagated pair_4x4 2))) as Hc
    by (apply uq_consistent_alt; decide_by_computation).
  split_and!; [done..|run|run|run|].
  apply (naked_sets_pass id Hperm (propagated pair_4x4 2) Hnd Hc).
Defined.
